(** * dadi.Numerics: grid, extrapolation to zero grid spacing, projection cache

    A shallow embedding of [dadi/Numerics.py].  Floating-point values are
    modelled in exact arithmetic by the real numbers [R].  The projection
    cache, whose behaviour depends on not-a-number values, is written over
    a float interface, with exact arithmetic extended by not-a-number as
    its instance.  Python exceptions are explicit results, and the calls
    of the extrapolation wrapper are recorded in a trace. *)

From Stdlib Require Import Reals Lra Lia ZArith List String.
From Stdlib Require Import FunctionalExtensionality.
From stdpp Require Import gmap list pretty.
Import ListNotations.

#[local] Unset Default Proof Using.
#[local] Open Scope R_scope.

(** ** Exceptions and results *)

(** The exceptions the module can raise: numpy's and Python's [IndexError],
    [ValueError] with its message, and whatever the wrapped function of
    [make_extrap_func] raises. *)
Inductive exn : Type :=
| IndexError
| ValueError (msg : string)
| Raised (what : string).

Inductive result (A : Type) : Type :=
| Ok (a : A)
| Err (e : exn).
Arguments Ok {A} a.
Arguments Err {A} e.

Definition rbind {A B : Type} (m : result A) (k : A -> result B) : result B :=
  match m with
  | Ok a => k a
  | Err e => Err e
  end.

Definition rmap {A B : Type} (f : A -> B) (m : result A) : result B :=
  match m with
  | Ok a => Ok (f a)
  | Err e => Err e
  end.

Notation "'let*' x ':=' e 'in' k" := (rbind e (fun x => k))
  (at level 10, x name, e at level 100, k at level 200, only parsing).

(** ** The numpy operations the module uses *)

(** [a[i]] on a one-dimensional array or a list: a negative index counts
    from the end, an index out of range raises [IndexError]. *)
Definition np_index {A : Type} (a : list A) (i : Z) : result A :=
  let n := Z.of_nat (length a) in
  let j := if (i <? 0)%Z then (i + n)%Z else i in
  if ((0 <=? j)%Z && (j <? n)%Z)%bool
  then match a !! Z.to_nat j with
       | Some v => Ok v
       | None => Err IndexError
       end
  else Err IndexError.

(** [numpy.arange(n)]: the integers [0 .. n-1], empty when [n <= 0]. *)
Definition arange (n : Z) : list Z := seqZ 0 n.

(** [numpy.linspace(start, stop, num)]: [num] evenly spaced samples,
    [arange(num) * step + start] with the last one set to [stop]; a single
    sample is [start], and no sample is the empty array.  The literal
    [0.05] of the source is [5 / 100] here. *)
Definition linspace (start stop : R) (num : Z) : list R :=
  if (num <=? 0)%Z then []
  else if (num =? 1)%Z then [start]
  else
    let step := (stop - start) / IZR (num - 1) in
    let y := (fun i => IZR i * step + start) <$> arange num in
    removelast y ++ [stop].

(** ** Grid generator *)

(** [small_pts = int(num_pts / 10)]: Python 2 integer division rounds down. *)
Definition small_pts (num_pts : Z) : Z := (num_pts / 10)%Z.

Definition large_pts (num_pts : Z) : Z := (num_pts - small_pts num_pts + 1)%Z.

(** The boundary segment, [numpy.linspace(0, 0.05, small_pts)]. *)
Definition boundary_grid (num_pts : Z) : list R :=
  linspace 0 (5 / 100) (small_pts num_pts).

Definition default_grid (num_pts : Z) : result (list R) :=
  let grid := boundary_grid num_pts in
  let q := linspace 0 1 (large_pts num_pts) in
  let* q1 := np_index q 1 in
  let* q0 := np_index q 0 in
  let dq := q1 - q0 in
  let* x_start := np_index grid (-1) in
  let* g1 := np_index grid (-1) in
  let* g2 := np_index grid (-2) in
  let dx_start := g1 - g2 in
  let d := x_start in
  let c := dx_start / dq in
  let b := -3 * (- dq + dx_start + dq * x_start) / dq in
  let a := -2 * b / 3 in
  Ok (removelast grid ++ ((fun qi => a * qi ^ 3 + b * qi ^ 2 + c * qi + d) <$> q)).

(** ** Polynomial extrapolators *)

(** The [y] values of the extrapolators are scalars or arrays; every
    operation on them is elementwise, with scalar [x] values. *)
Class Elementwise (Y : Type) : Type := {
  yadd : Y -> Y -> Y;
  ysub : Y -> Y -> Y;
  yneg : Y -> Y;
  smul : R -> Y -> Y;
  sdiv : Y -> R -> Y;
  ylog : Y -> Y;
  yexp : Y -> Y }.

Infix ".+" := yadd (at level 50, left associativity).
Infix ".-" := ysub (at level 50, left associativity).
Infix ".*" := smul (at level 40, left associativity).
Infix "./" := sdiv (at level 40, left associativity).
Notation ".- y" := (yneg y) (at level 35, right associativity).

(** A scalar result. *)
#[export] Instance scalar_ops : Elementwise R := {|
  yadd := Rplus; ysub := Rminus; yneg := Ropp;
  smul := Rmult; sdiv := Rdiv; ylog := ln; yexp := exp |}.

(** An array result of a fixed shape [idx], the type of its indices: one
    real per index. *)
Definition array (idx : Type) : Type := idx -> R.

#[export] Instance array_ops (idx : Type) : Elementwise (array idx) := {|
  yadd := fun y1 y2 e => y1 e + y2 e;
  ysub := fun y1 y2 e => y1 e - y2 e;
  yneg := fun y e => - y e;
  smul := fun x y e => x * y e;
  sdiv := fun y x e => y e / x;
  ylog := fun y e => ln (y e);
  yexp := fun y e => exp (y e) |}.

Section Extrapolators.
Context {Y : Type} `{Elementwise Y}.

Definition linear_extrap (ys : Y * Y) (xs : R * R) : Y :=
  let '(y1, y2) := ys in
  let '(x1, x2) := xs in
  (x2 .* y1 .- x1 .* y2) ./ (x2 - x1).

Definition quadratic_extrap (ys : Y * Y * Y) (xs : R * R * R) : Y :=
  let '(y1, y2, y3) := ys in
  let '(x1, x2, x3) := xs in
  x2 * x3 / ((x1 - x2) * (x1 - x3)) .* y1 .+ x1 * x3 / ((x2 - x1) * (x2 -
  x3)) .* y2 .+ x1 * x2 / ((x3 - x1) * (x3 - x2)) .* y3.

Definition cubic_extrap (ys : Y * Y * Y * Y) (xs : R * R * R * R) : Y :=
  let '(y1, y2, y3, y4) := ys in
  let '(x1, x2, x3, x4) := xs in
  (x1 * (x1 - x3) * x3 * (x1 - x4) * (x3 - x4) * x4 .* y2 .+ x2 * x4 ^ 2 .*
  (.- (x3 ^ 3 .* y1) .+ x3 ^ 2 * x4 .* y1 .+ x1 ^ 2 * (x1 - x4) .* y3) .+ x1
  ^ 2 * x2 * x3 ^ 2 * (- x1 + x3) .* y4 .+ x2 ^ 3 .* (x4 .* (.- (x3 ^ 2 .*
  y1) .+ x3 * x4 .* y1 .+ x1 * (x1 - x4) .* y3) .+ x1 * x3 * (- x1 + x3) .*
  y4) .+ x2 ^ 2 .* (x1 * x4 * (- x1 ^ 2 + x4 ^ 2) .* y3 .+ x3 ^ 3 .* (x4 .*
  y1 .- x1 .* y4) .+ x3 .* (.- (x4 ^ 3 .* y1) .+ x1 ^ 3 .* y4))) ./ ((x1 -
  x2) * (x1 - x3) * (x2 - x3) * (x1 - x4) * (x2 - x4) * (x3 - x4)).

Definition quartic_extrap (ys : Y * Y * Y * Y * Y) (xs : R * R * R * R * R) : Y :=
  let '(y1, y2, y3, y4, y5) := ys in
  let '(x1, x2, x3, x4, x5) := xs in
  (.- (x1 * (x1 - x3) * x3 * (x1 - x4) * (x3 - x4) * x4 * (x1 - x5) * (x3 -
  x5) * (x4 - x5) * x5 .* y2) .+ x2 ^ 4 .* (.- (x1 * (x1 - x4) * x4 * (x1 -
  x5) * (x4 - x5) * x5 .* y3) .+ x3 ^ 3 .* (x1 * x5 * (- x1 + x5) .* y4 .+
  x4 ^ 2 .* (x5 .* y1 .- x1 .* y5) .+ x4 .* (.- (x5 ^ 2 .* y1) .+ x1 ^ 2 .*
  y5)) .+ x3 ^ 2 .* (x1 * x5 * (x1 ^ 2 - x5 ^ 2) .* y4 .+ x4 ^ 3 .* (.- (x5
  .* y1) .+ x1 .* y5) .+ x4 .* (x5 ^ 3 .* y1 .- x1 ^ 3 .* y5)) .+ x3 .* (x1
  ^ 2 * x5 ^ 2 * (- x1 + x5) .* y4 .+ x4 ^ 3 .* (x5 ^ 2 .* y1 .- x1 ^ 2 .*
  y5) .+ x4 ^ 2 .* (.- (x5 ^ 3 .* y1) .+ x1 ^ 3 .* y5))) .+ x2 ^ 3 .* (x1 *
  x4 * x5 * (x1 ^ 3 * (x4 - x5) + x4 * x5 * (x4 ^ 2 - x5 ^ 2) + x1 * (- x4 ^
  3 + x5 ^ 3)) .* y3 .+ x3 ^ 4 .* (x1 * (x1 - x5) * x5 .* y4 .+ x4 ^ 2 .*
  (.- (x5 .* y1) .+ x1 .* y5) .+ x4 .* (x5 ^ 2 .* y1 .- x1 ^ 2 .* y5)) .+ x3
  .* (x1 ^ 2 * x5 ^ 2 * (x1 ^ 2 - x5 ^ 2) .* y4 .+ x4 ^ 4 .* (.- (x5 ^ 2 .*
  y1) .+ x1 ^ 2 .* y5) .+ x4 ^ 2 .* (x5 ^ 4 .* y1 .- x1 ^ 4 .* y5)) .+ x3 ^
  2 .* (x1 * x5 * (- x1 ^ 3 + x5 ^ 3) .* y4 .+ x4 ^ 4 .* (x5 .* y1 .- x1 .*
  y5) .+ x4 .* (.- (x5 ^ 4 .* y1) .+ x1 ^ 4 .* y5))) .+ x2 .* (x1 ^ 2 * (x1
  - x4) * x4 ^ 2 * (x1 - x5) * (x4 - x5) * x5 ^ 2 .* y3 .+ x3 ^ 4 .* (x1 ^ 2
  * (x1 - x5) * x5 ^ 2 .* y4 .+ x4 ^ 3 .* (.- (x5 ^ 2 .* y1) .+ x1 ^ 2 .*
  y5) .+ x4 ^ 2 .* (x5 ^ 3 .* y1 .- x1 ^ 3 .* y5)) .+ x3 ^ 2 .* (x1 ^ 3 *
  (x1 - x5) * x5 ^ 3 .* y4 .+ x4 ^ 4 .* (.- (x5 ^ 3 .* y1) .+ x1 ^ 3 .* y5)
  .+ x4 ^ 3 .* (x5 ^ 4 .* y1 .- x1 ^ 4 .* y5)) .+ x3 ^ 3 .* (x1 ^ 2 * x5 ^ 2
  * (- x1 ^ 2 + x5 ^ 2) .* y4 .+ x4 ^ 4 .* (x5 ^ 2 .* y1 .- x1 ^ 2 .* y5) .+
  x4 ^ 2 .* (.- (x5 ^ 4 .* y1) .+ x1 ^ 4 .* y5))) .+ x2 ^ 2 .* (x1 * x4 * x5
  * (x4 ^ 2 * x5 ^ 2 * (- x4 + x5) + x1 ^ 3 * (- x4 ^ 2 + x5 ^ 2) + x1 ^ 2 *
  (x4 ^ 3 - x5 ^ 3)) .* y3 .+ x3 ^ 4 .* (x1 * x5 * (- x1 ^ 2 + x5 ^ 2) .* y4
  .+ x4 ^ 3 .* (x5 .* y1 .- x1 .* y5) .+ x4 .* (.- (x5 ^ 3 .* y1) .+ x1 ^ 3
  .* y5)) .+ x3 ^ 3 .* (x1 * x5 * (x1 ^ 3 - x5 ^ 3) .* y4 .+ x4 ^ 4 .* (.-
  (x5 .* y1) .+ x1 .* y5) .+ x4 .* (x5 ^ 4 .* y1 .- x1 ^ 4 .* y5)) .+ x3 .*
  (x1 ^ 3 * x5 ^ 3 * (- x1 + x5) .* y4 .+ x4 ^ 4 .* (x5 ^ 3 .* y1 .- x1 ^ 3
  .* y5) .+ x4 ^ 3 .* (.- (x5 ^ 4 .* y1) .+ x1 ^ 4 .* y5)))) ./ ((x1 - x2) *
  (x1 - x3) * (x2 - x3) * (x1 - x4) * (x2 - x4) * (x3 - x4) * (x1 - x5) *
  (x2 - x5) * (x3 - x5) * (x4 - x5)).

Definition quintic_extrap (ys : Y * Y * Y * Y * Y * Y) (xs : R * R * R * R * R * R) : Y :=
  let '(y1, y2, y3, y4, y5, y6) := ys in
  let '(x1, x2, x3, x4, x5, x6) := xs in
  (.- (x1 * (x1 - x3) * x3 * (x1 - x4) * (x3 - x4) * x4 * (x1 - x5) * (x3 -
  x5) * (x4 - x5) * x5 * (x1 - x6) * (x3 - x6) * (x4 - x6) * (x5 - x6) * x6
  .* y2) .+ x2 ^ 5 .* (.- (x1 * (x1 - x4) * x4 * (x1 - x5) * (x4 - x5) * x5
  * (x1 - x6) * (x4 - x6) * (x5 - x6) * x6 .* y3) .+ x3 ^ 4 .* (.- (x1 * (x1
  - x5) * x5 * (x1 - x6) * (x5 - x6) * x6 .* y4) .+ x4 ^ 3 .* (x1 * x6 * (-
  x1 + x6) .* y5 .+ x5 ^ 2 .* (x6 .* y1 .- x1 .* y6) .+ x5 .* (.- (x6 ^ 2 .*
  y1) .+ x1 ^ 2 .* y6)) .+ x4 ^ 2 .* (x1 * x6 * (x1 ^ 2 - x6 ^ 2) .* y5 .+
  x5 ^ 3 .* (.- (x6 .* y1) .+ x1 .* y6) .+ x5 .* (x6 ^ 3 .* y1 .- x1 ^ 3 .*
  y6)) .+ x4 .* (x1 ^ 2 * x6 ^ 2 * (- x1 + x6) .* y5 .+ x5 ^ 3 .* (x6 ^ 2 .*
  y1 .- x1 ^ 2 .* y6) .+ x5 ^ 2 .* (.- (x6 ^ 3 .* y1) .+ x1 ^ 3 .* y6))) .+
  x3 ^ 3 .* (x1 * x5 * x6 * (x1 ^ 3 * (x5 - x6) + x5 * x6 * (x5 ^ 2 - x6 ^
  2) + x1 * (- x5 ^ 3 + x6 ^ 3)) .* y4 .+ x4 ^ 4 .* (x1 * (x1 - x6) * x6 .*
  y5 .+ x5 ^ 2 .* (.- (x6 .* y1) .+ x1 .* y6) .+ x5 .* (x6 ^ 2 .* y1 .- x1 ^
  2 .* y6)) .+ x4 .* (x1 ^ 2 * x6 ^ 2 * (x1 ^ 2 - x6 ^ 2) .* y5 .+ x5 ^ 4 .*
  (.- (x6 ^ 2 .* y1) .+ x1 ^ 2 .* y6) .+ x5 ^ 2 .* (x6 ^ 4 .* y1 .- x1 ^ 4
  .* y6)) .+ x4 ^ 2 .* (x1 * x6 * (- x1 ^ 3 + x6 ^ 3) .* y5 .+ x5 ^ 4 .* (x6
  .* y1 .- x1 .* y6) .+ x5 .* (.- (x6 ^ 4 .* y1) .+ x1 ^ 4 .* y6))) .+ x3 .*
  (x1 ^ 2 * (x1 - x5) * x5 ^ 2 * (x1 - x6) * (x5 - x6) * x6 ^ 2 .* y4 .+ x4
  ^ 4 .* (x1 ^ 2 * (x1 - x6) * x6 ^ 2 .* y5 .+ x5 ^ 3 .* (.- (x6 ^ 2 .* y1)
  .+ x1 ^ 2 .* y6) .+ x5 ^ 2 .* (x6 ^ 3 .* y1 .- x1 ^ 3 .* y6)) .+ x4 ^ 2 .*
  (x1 ^ 3 * (x1 - x6) * x6 ^ 3 .* y5 .+ x5 ^ 4 .* (.- (x6 ^ 3 .* y1) .+ x1 ^
  3 .* y6) .+ x5 ^ 3 .* (x6 ^ 4 .* y1 .- x1 ^ 4 .* y6)) .+ x4 ^ 3 .* (x1 ^ 2
  * x6 ^ 2 * (- x1 ^ 2 + x6 ^ 2) .* y5 .+ x5 ^ 4 .* (x6 ^ 2 .* y1 .- x1 ^ 2
  .* y6) .+ x5 ^ 2 .* (.- (x6 ^ 4 .* y1) .+ x1 ^ 4 .* y6))) .+ x3 ^ 2 .* (x1
  * x5 * x6 * (x5 ^ 2 * x6 ^ 2 * (- x5 + x6) + x1 ^ 3 * (- x5 ^ 2 + x6 ^ 2)
  + x1 ^ 2 * (x5 ^ 3 - x6 ^ 3)) .* y4 .+ x4 ^ 4 .* (x1 * x6 * (- x1 ^ 2 + x6
  ^ 2) .* y5 .+ x5 ^ 3 .* (x6 .* y1 .- x1 .* y6) .+ x5 .* (.- (x6 ^ 3 .* y1)
  .+ x1 ^ 3 .* y6)) .+ x4 ^ 3 .* (x1 * x6 * (x1 ^ 3 - x6 ^ 3) .* y5 .+ x5 ^
  4 .* (.- (x6 .* y1) .+ x1 .* y6) .+ x5 .* (x6 ^ 4 .* y1 .- x1 ^ 4 .* y6))
  .+ x4 .* (x1 ^ 3 * x6 ^ 3 * (- x1 + x6) .* y5 .+ x5 ^ 4 .* (x6 ^ 3 .* y1
  .- x1 ^ 3 .* y6) .+ x5 ^ 3 .* (.- (x6 ^ 4 .* y1) .+ x1 ^ 4 .* y6)))) .+ x2
  ^ 4 .* (x1 * (x1 - x4) * x4 * (x1 - x5) * (x4 - x5) * x5 * (x1 - x6) * (x4
  - x6) * (x5 - x6) * x6 * (x1 + x4 + x5 + x6) .* y3 .+ x3 ^ 5 .* (x1 * (x1
  - x5) * x5 * (x1 - x6) * (x5 - x6) * x6 .* y4 .+ x4 ^ 3 .* (x1 * (x1 - x6)
  * x6 .* y5 .+ x5 ^ 2 .* (.- (x6 .* y1) .+ x1 .* y6) .+ x5 .* (x6 ^ 2 .* y1
  .- x1 ^ 2 .* y6)) .+ x4 .* (x1 ^ 2 * (x1 - x6) * x6 ^ 2 .* y5 .+ x5 ^ 3 .*
  (.- (x6 ^ 2 .* y1) .+ x1 ^ 2 .* y6) .+ x5 ^ 2 .* (x6 ^ 3 .* y1 .- x1 ^ 3
  .* y6)) .+ x4 ^ 2 .* (x1 * x6 * (- x1 ^ 2 + x6 ^ 2) .* y5 .+ x5 ^ 3 .* (x6
  .* y1 .- x1 .* y6) .+ x5 .* (.- (x6 ^ 3 .* y1) .+ x1 ^ 3 .* y6))) .+ x3 ^
  2 .* (x1 * x5 * (x1 ^ 2 - x5 ^ 2) * x6 * (x1 ^ 2 - x6 ^ 2) * (x5 ^ 2 - x6
  ^ 2) .* y4 .+ x4 ^ 5 .* (x1 * x6 * (x1 ^ 2 - x6 ^ 2) .* y5 .+ x5 ^ 3 .*
  (.- (x6 .* y1) .+ x1 .* y6) .+ x5 .* (x6 ^ 3 .* y1 .- x1 ^ 3 .* y6)) .+ x4
  .* (x1 ^ 3 * x6 ^ 3 * (x1 ^ 2 - x6 ^ 2) .* y5 .+ x5 ^ 5 .* (.- (x6 ^ 3 .*
  y1) .+ x1 ^ 3 .* y6) .+ x5 ^ 3 .* (x6 ^ 5 .* y1 .- x1 ^ 5 .* y6)) .+ x4 ^
  3 .* (x1 * x6 * (- x1 ^ 4 + x6 ^ 4) .* y5 .+ x5 ^ 5 .* (x6 .* y1 .- x1 .*
  y6) .+ x5 .* (.- (x6 ^ 5 .* y1) .+ x1 ^ 5 .* y6))) .+ x3 ^ 3 .* (x1 * x5 *
  x6 * (- (x5 ^ 4 * x6) + x5 * x6 ^ 4 + x1 ^ 4 * (- x5 + x6) + x1 * (x5 ^ 4
  - x6 ^ 4)) .* y4 .+ x4 ^ 5 .* (x1 * x6 * (- x1 + x6) .* y5 .+ x5 ^ 2 .*
  (x6 .* y1 .- x1 .* y6) .+ x5 .* (.- (x6 ^ 2 .* y1) .+ x1 ^ 2 .* y6)) .+ x4
  ^ 2 .* (x1 * x6 * (x1 ^ 4 - x6 ^ 4) .* y5 .+ x5 ^ 5 .* (.- (x6 .* y1) .+
  x1 .* y6) .+ x5 .* (x6 ^ 5 .* y1 .- x1 ^ 5 .* y6)) .+ x4 .* (x1 ^ 2 * x6 ^
  2 * (- x1 ^ 3 + x6 ^ 3) .* y5 .+ x5 ^ 5 .* (x6 ^ 2 .* y1 .- x1 ^ 2 .* y6)
  .+ x5 ^ 2 .* (.- (x6 ^ 5 .* y1) .+ x1 ^ 5 .* y6))) .+ x3 .* (x1 ^ 2 * x5 ^
  2 * x6 ^ 2 * (- (x5 ^ 3 * x6) + x5 * x6 ^ 3 + x1 ^ 3 * (- x5 + x6) + x1 *
  (x5 ^ 3 - x6 ^ 3)) .* y4 .+ x4 ^ 5 .* (x1 ^ 2 * x6 ^ 2 * (- x1 + x6) .* y5
  .+ x5 ^ 3 .* (x6 ^ 2 .* y1 .- x1 ^ 2 .* y6) .+ x5 ^ 2 .* (.- (x6 ^ 3 .*
  y1) .+ x1 ^ 3 .* y6)) .+ x4 ^ 3 .* (x1 ^ 2 * x6 ^ 2 * (x1 ^ 3 - x6 ^ 3) .*
  y5 .+ x5 ^ 5 .* (.- (x6 ^ 2 .* y1) .+ x1 ^ 2 .* y6) .+ x5 ^ 2 .* (x6 ^ 5
  .* y1 .- x1 ^ 5 .* y6)) .+ x4 ^ 2 .* (x1 ^ 3 * x6 ^ 3 * (- x1 ^ 2 + x6 ^
  2) .* y5 .+ x5 ^ 5 .* (x6 ^ 3 .* y1 .- x1 ^ 3 .* y6) .+ x5 ^ 3 .* (.- (x6
  ^ 5 .* y1) .+ x1 ^ 5 .* y6)))) .+ x2 ^ 3 .* (.- (x1 * (x1 - x4) * x4 * (x1
  - x5) * (x4 - x5) * x5 * (x1 - x6) * (x4 - x6) * (x5 - x6) * x6 * (x5 * x6
  + x4 * (x5 + x6) + x1 * (x4 + x5 + x6)) .* y3) .+ x3 ^ 5 .* (x1 * x5 * x6
  * (- (x5 ^ 3 * x6) + x5 * x6 ^ 3 + x1 ^ 3 * (- x5 + x6) + x1 * (x5 ^ 3 -
  x6 ^ 3)) .* y4 .+ x4 ^ 4 .* (x1 * x6 * (- x1 + x6) .* y5 .+ x5 ^ 2 .* (x6
  .* y1 .- x1 .* y6) .+ x5 .* (.- (x6 ^ 2 .* y1) .+ x1 ^ 2 .* y6)) .+ x4 ^ 2
  .* (x1 * x6 * (x1 ^ 3 - x6 ^ 3) .* y5 .+ x5 ^ 4 .* (.- (x6 .* y1) .+ x1 .*
  y6) .+ x5 .* (x6 ^ 4 .* y1 .- x1 ^ 4 .* y6)) .+ x4 .* (x1 ^ 2 * x6 ^ 2 *
  (- x1 ^ 2 + x6 ^ 2) .* y5 .+ x5 ^ 4 .* (x6 ^ 2 .* y1 .- x1 ^ 2 .* y6) .+
  x5 ^ 2 .* (.- (x6 ^ 4 .* y1) .+ x1 ^ 4 .* y6))) .+ x3 ^ 4 .* (x1 * x5 * x6
  * (x1 ^ 4 * (x5 - x6) + x5 * x6 * (x5 ^ 3 - x6 ^ 3) + x1 * (- x5 ^ 4 + x6
  ^ 4)) .* y4 .+ x4 ^ 5 .* (x1 * (x1 - x6) * x6 .* y5 .+ x5 ^ 2 .* (.- (x6
  .* y1) .+ x1 .* y6) .+ x5 .* (x6 ^ 2 .* y1 .- x1 ^ 2 .* y6)) .+ x4 .* (x1
  ^ 2 * x6 ^ 2 * (x1 ^ 3 - x6 ^ 3) .* y5 .+ x5 ^ 5 .* (.- (x6 ^ 2 .* y1) .+
  x1 ^ 2 .* y6) .+ x5 ^ 2 .* (x6 ^ 5 .* y1 .- x1 ^ 5 .* y6)) .+ x4 ^ 2 .*
  (x1 * x6 * (- x1 ^ 4 + x6 ^ 4) .* y5 .+ x5 ^ 5 .* (x6 .* y1 .- x1 .* y6)
  .+ x5 .* (.- (x6 ^ 5 .* y1) .+ x1 ^ 5 .* y6))) .+ x3 .* (x1 ^ 2 * x5 ^ 2 *
  x6 ^ 2 * (x5 ^ 2 * (x5 - x6) * x6 ^ 2 + x1 ^ 3 * (x5 ^ 2 - x6 ^ 2) + x1 ^
  2 * (- x5 ^ 3 + x6 ^ 3)) .* y4 .+ x4 ^ 5 .* (x1 ^ 2 * x6 ^ 2 * (x1 ^ 2 -
  x6 ^ 2) .* y5 .+ x5 ^ 4 .* (.- (x6 ^ 2 .* y1) .+ x1 ^ 2 .* y6) .+ x5 ^ 2
  .* (x6 ^ 4 .* y1 .- x1 ^ 4 .* y6)) .+ x4 ^ 2 .* (x1 ^ 4 * (x1 - x6) * x6 ^
  4 .* y5 .+ x5 ^ 5 .* (.- (x6 ^ 4 .* y1) .+ x1 ^ 4 .* y6) .+ x5 ^ 4 .* (x6
  ^ 5 .* y1 .- x1 ^ 5 .* y6)) .+ x4 ^ 4 .* (x1 ^ 2 * x6 ^ 2 * (- x1 ^ 3 + x6
  ^ 3) .* y5 .+ x5 ^ 5 .* (x6 ^ 2 .* y1 .- x1 ^ 2 .* y6) .+ x5 ^ 2 .* (.-
  (x6 ^ 5 .* y1) .+ x1 ^ 5 .* y6))) .+ x3 ^ 2 .* (x1 * x5 * x6 * (x5 ^ 3 *
  x6 ^ 3 * (- x5 + x6) + x1 ^ 4 * (- x5 ^ 3 + x6 ^ 3) + x1 ^ 3 * (x5 ^ 4 -
  x6 ^ 4)) .* y4 .+ x4 ^ 5 .* (x1 * x6 * (- x1 ^ 3 + x6 ^ 3) .* y5 .+ x5 ^ 4
  .* (x6 .* y1 .- x1 .* y6) .+ x5 .* (.- (x6 ^ 4 .* y1) .+ x1 ^ 4 .* y6)) .+
  x4 ^ 4 .* (x1 * x6 * (x1 ^ 4 - x6 ^ 4) .* y5 .+ x5 ^ 5 .* (.- (x6 .* y1)
  .+ x1 .* y6) .+ x5 .* (x6 ^ 5 .* y1 .- x1 ^ 5 .* y6)) .+ x4 .* (x1 ^ 4 *
  x6 ^ 4 * (- x1 + x6) .* y5 .+ x5 ^ 5 .* (x6 ^ 4 .* y1 .- x1 ^ 4 .* y6) .+
  x5 ^ 4 .* (.- (x6 ^ 5 .* y1) .+ x1 ^ 5 .* y6)))) .+ x2 .* (.- (x1 ^ 2 *
  (x1 - x4) * x4 ^ 2 * (x1 - x5) * (x4 - x5) * x5 ^ 2 * (x1 - x6) * (x4 -
  x6) * (x5 - x6) * x6 ^ 2 .* y3) .+ x3 ^ 5 .* (.- (x1 ^ 2 * (x1 - x5) * x5
  ^ 2 * (x1 - x6) * (x5 - x6) * x6 ^ 2 .* y4) .+ x4 ^ 4 .* (x1 ^ 2 * x6 ^ 2
  * (- x1 + x6) .* y5 .+ x5 ^ 3 .* (x6 ^ 2 .* y1 .- x1 ^ 2 .* y6) .+ x5 ^ 2
  .* (.- (x6 ^ 3 .* y1) .+ x1 ^ 3 .* y6)) .+ x4 ^ 3 .* (x1 ^ 2 * x6 ^ 2 *
  (x1 ^ 2 - x6 ^ 2) .* y5 .+ x5 ^ 4 .* (.- (x6 ^ 2 .* y1) .+ x1 ^ 2 .* y6)
  .+ x5 ^ 2 .* (x6 ^ 4 .* y1 .- x1 ^ 4 .* y6)) .+ x4 ^ 2 .* (x1 ^ 3 * x6 ^ 3
  * (- x1 + x6) .* y5 .+ x5 ^ 4 .* (x6 ^ 3 .* y1 .- x1 ^ 3 .* y6) .+ x5 ^ 3
  .* (.- (x6 ^ 4 .* y1) .+ x1 ^ 4 .* y6))) .+ x3 ^ 4 .* (x1 ^ 2 * x5 ^ 2 *
  x6 ^ 2 * (x1 ^ 3 * (x5 - x6) + x5 * x6 * (x5 ^ 2 - x6 ^ 2) + x1 * (- x5 ^
  3 + x6 ^ 3)) .* y4 .+ x4 ^ 5 .* (x1 ^ 2 * (x1 - x6) * x6 ^ 2 .* y5 .+ x5 ^
  3 .* (.- (x6 ^ 2 .* y1) .+ x1 ^ 2 .* y6) .+ x5 ^ 2 .* (x6 ^ 3 .* y1 .- x1
  ^ 3 .* y6)) .+ x4 ^ 2 .* (x1 ^ 3 * x6 ^ 3 * (x1 ^ 2 - x6 ^ 2) .* y5 .+ x5
  ^ 5 .* (.- (x6 ^ 3 .* y1) .+ x1 ^ 3 .* y6) .+ x5 ^ 3 .* (x6 ^ 5 .* y1 .-
  x1 ^ 5 .* y6)) .+ x4 ^ 3 .* (x1 ^ 2 * x6 ^ 2 * (- x1 ^ 3 + x6 ^ 3) .* y5
  .+ x5 ^ 5 .* (x6 ^ 2 .* y1 .- x1 ^ 2 .* y6) .+ x5 ^ 2 .* (.- (x6 ^ 5 .*
  y1) .+ x1 ^ 5 .* y6))) .+ x3 ^ 2 .* (x1 ^ 3 * (x1 - x5) * x5 ^ 3 * (x1 -
  x6) * (x5 - x6) * x6 ^ 3 .* y4 .+ x4 ^ 5 .* (x1 ^ 3 * (x1 - x6) * x6 ^ 3
  .* y5 .+ x5 ^ 4 .* (.- (x6 ^ 3 .* y1) .+ x1 ^ 3 .* y6) .+ x5 ^ 3 .* (x6 ^
  4 .* y1 .- x1 ^ 4 .* y6)) .+ x4 ^ 3 .* (x1 ^ 4 * (x1 - x6) * x6 ^ 4 .* y5
  .+ x5 ^ 5 .* (.- (x6 ^ 4 .* y1) .+ x1 ^ 4 .* y6) .+ x5 ^ 4 .* (x6 ^ 5 .*
  y1 .- x1 ^ 5 .* y6)) .+ x4 ^ 4 .* (x1 ^ 3 * x6 ^ 3 * (- x1 ^ 2 + x6 ^ 2)
  .* y5 .+ x5 ^ 5 .* (x6 ^ 3 .* y1 .- x1 ^ 3 .* y6) .+ x5 ^ 3 .* (.- (x6 ^ 5
  .* y1) .+ x1 ^ 5 .* y6))) .+ x3 ^ 3 .* (x1 ^ 2 * x5 ^ 2 * x6 ^ 2 * (x5 ^ 2
  * x6 ^ 2 * (- x5 + x6) + x1 ^ 3 * (- x5 ^ 2 + x6 ^ 2) + x1 ^ 2 * (x5 ^ 3 -
  x6 ^ 3)) .* y4 .+ x4 ^ 5 .* (x1 ^ 2 * x6 ^ 2 * (- x1 ^ 2 + x6 ^ 2) .* y5
  .+ x5 ^ 4 .* (x6 ^ 2 .* y1 .- x1 ^ 2 .* y6) .+ x5 ^ 2 .* (.- (x6 ^ 4 .*
  y1) .+ x1 ^ 4 .* y6)) .+ x4 ^ 4 .* (x1 ^ 2 * x6 ^ 2 * (x1 ^ 3 - x6 ^ 3) .*
  y5 .+ x5 ^ 5 .* (.- (x6 ^ 2 .* y1) .+ x1 ^ 2 .* y6) .+ x5 ^ 2 .* (x6 ^ 5
  .* y1 .- x1 ^ 5 .* y6)) .+ x4 ^ 2 .* (x1 ^ 4 * x6 ^ 4 * (- x1 + x6) .* y5
  .+ x5 ^ 5 .* (x6 ^ 4 .* y1 .- x1 ^ 4 .* y6) .+ x5 ^ 4 .* (.- (x6 ^ 5 .*
  y1) .+ x1 ^ 5 .* y6)))) .+ x2 ^ 2 .* (x1 * (x1 - x4) * x4 * (x1 - x5) *
  (x4 - x5) * x5 * (x1 - x6) * (x4 - x6) * (x5 - x6) * x6 * (x4 * x5 * x6 +
  x1 * (x5 * x6 + x4 * (x5 + x6))) .* y3 .+ x3 ^ 5 .* (x1 * x5 * x6 * (x5 ^
  2 * (x5 - x6) * x6 ^ 2 + x1 ^ 3 * (x5 ^ 2 - x6 ^ 2) + x1 ^ 2 * (- x5 ^ 3 +
  x6 ^ 3)) .* y4 .+ x4 ^ 4 .* (x1 * x6 * (x1 ^ 2 - x6 ^ 2) .* y5 .+ x5 ^ 3
  .* (.- (x6 .* y1) .+ x1 .* y6) .+ x5 .* (x6 ^ 3 .* y1 .- x1 ^ 3 .* y6)) .+
  x4 .* (x1 ^ 3 * (x1 - x6) * x6 ^ 3 .* y5 .+ x5 ^ 4 .* (.- (x6 ^ 3 .* y1)
  .+ x1 ^ 3 .* y6) .+ x5 ^ 3 .* (x6 ^ 4 .* y1 .- x1 ^ 4 .* y6)) .+ x4 ^ 3 .*
  (x1 * x6 * (- x1 ^ 3 + x6 ^ 3) .* y5 .+ x5 ^ 4 .* (x6 .* y1 .- x1 .* y6)
  .+ x5 .* (.- (x6 ^ 4 .* y1) .+ x1 ^ 4 .* y6))) .+ x3 ^ 3 .* (x1 * x5 * x6
  * (x5 ^ 3 * (x5 - x6) * x6 ^ 3 + x1 ^ 4 * (x5 ^ 3 - x6 ^ 3) + x1 ^ 3 * (-
  x5 ^ 4 + x6 ^ 4)) .* y4 .+ x4 ^ 5 .* (x1 * x6 * (x1 ^ 3 - x6 ^ 3) .* y5 .+
  x5 ^ 4 .* (.- (x6 .* y1) .+ x1 .* y6) .+ x5 .* (x6 ^ 4 .* y1 .- x1 ^ 4 .*
  y6)) .+ x4 .* (x1 ^ 4 * (x1 - x6) * x6 ^ 4 .* y5 .+ x5 ^ 5 .* (.- (x6 ^ 4
  .* y1) .+ x1 ^ 4 .* y6) .+ x5 ^ 4 .* (x6 ^ 5 .* y1 .- x1 ^ 5 .* y6)) .+ x4
  ^ 4 .* (x1 * x6 * (- x1 ^ 4 + x6 ^ 4) .* y5 .+ x5 ^ 5 .* (x6 .* y1 .- x1
  .* y6) .+ x5 .* (.- (x6 ^ 5 .* y1) .+ x1 ^ 5 .* y6))) .+ x3 ^ 4 .* (.- (x1
  * x5 * (x1 ^ 2 - x5 ^ 2) * x6 * (x1 ^ 2 - x6 ^ 2) * (x5 ^ 2 - x6 ^ 2) .*
  y4) .+ x4 ^ 5 .* (x1 * x6 * (- x1 ^ 2 + x6 ^ 2) .* y5 .+ x5 ^ 3 .* (x6 .*
  y1 .- x1 .* y6) .+ x5 .* (.- (x6 ^ 3 .* y1) .+ x1 ^ 3 .* y6)) .+ x4 ^ 3 .*
  (x1 * x6 * (x1 ^ 4 - x6 ^ 4) .* y5 .+ x5 ^ 5 .* (.- (x6 .* y1) .+ x1 .*
  y6) .+ x5 .* (x6 ^ 5 .* y1 .- x1 ^ 5 .* y6)) .+ x4 .* (x1 ^ 3 * x6 ^ 3 *
  (- x1 ^ 2 + x6 ^ 2) .* y5 .+ x5 ^ 5 .* (x6 ^ 3 .* y1 .- x1 ^ 3 .* y6) .+
  x5 ^ 3 .* (.- (x6 ^ 5 .* y1) .+ x1 ^ 5 .* y6))) .+ x3 .* (.- (x1 ^ 3 * (x1
  - x5) * x5 ^ 3 * (x1 - x6) * (x5 - x6) * x6 ^ 3 .* y4) .+ x4 ^ 5 .* (x1 ^
  3 * x6 ^ 3 * (- x1 + x6) .* y5 .+ x5 ^ 4 .* (x6 ^ 3 .* y1 .- x1 ^ 3 .* y6)
  .+ x5 ^ 3 .* (.- (x6 ^ 4 .* y1) .+ x1 ^ 4 .* y6)) .+ x4 ^ 4 .* (x1 ^ 3 *
  x6 ^ 3 * (x1 ^ 2 - x6 ^ 2) .* y5 .+ x5 ^ 5 .* (.- (x6 ^ 3 .* y1) .+ x1 ^ 3
  .* y6) .+ x5 ^ 3 .* (x6 ^ 5 .* y1 .- x1 ^ 5 .* y6)) .+ x4 ^ 3 .* (x1 ^ 4 *
  x6 ^ 4 * (- x1 + x6) .* y5 .+ x5 ^ 5 .* (x6 ^ 4 .* y1 .- x1 ^ 4 .* y6) .+
  x5 ^ 4 .* (.- (x6 ^ 5 .* y1) .+ x1 ^ 5 .* y6))))) ./ ((x1 - x2) * (x1 -
  x3) * (- x2 + x3) * (x1 - x4) * (- x2 + x4) * (- x3 + x4) * (x1 - x5) *
  (x2 - x5) * (x3 - x5) * (x4 - x5) * (x1 - x6) * (x2 - x6) * (x3 - x6) *
  (x4 - x6) * (x5 - x6)).

End Extrapolators.

(** ** Extrapolation wrapper *)

(** The calls a run of [extrap_func] makes, in order. *)
Inductive event : Type :=
| GridCall (pts : Z)
| FuncCall (pts : Z).

(** A computation that makes calls and then returns or raises. *)
Definition traced (A : Type) : Type := (list event * result A)%type.

Definition tret {A : Type} (a : A) : traced A := ([], Ok a).

Definition tbind {A B : Type} (m : traced A) (k : A -> traced B) : traced B :=
  match m with
  | (t, Ok a) => let '(t', r) := k a in (t ++ t', r)
  | (t, Err e) => (t, Err e)
  end.

Definition tmap {A B : Type} (f : A -> B) (m : traced A) : traced B :=
  (fst m, rmap f (snd m)).

Definition call {A : Type} (ev : event) (r : result A) : traced A := ([ev], r).

Definition pure {A : Type} (r : result A) : traced A := ([], r).

Notation "'let!' x ':=' e 'in' k" := (tbind e (fun x => k))
  (at level 10, x name, e at level 100, k at level 200, only parsing).

Definition range_msg : string :=
  "Number of calculations to use for extrapolation must be between 1 and 6".

Definition unpack_msg : string := "wrong number of values to unpack".

Section Wrapper.
Context {Y : Type} `{Elementwise Y} {Args Kw : Type}.

(** The [if]/[elif] chain of [extrap_func] on [n = len(pts_l)].  The
    extrapolators unpack their two arguments into tuples, which raises
    on a list of another length. *)
Definition extrapolate (n : nat) (result_l : list Y) (x_l : list R) : result Y :=
  match n with
  | 1%nat => np_index result_l 0
  | 2%nat =>
      match result_l, x_l with
      | [y1; y2], [x1; x2] => Ok (linear_extrap (y1, y2) (x1, x2))
      | _, _ => Err (ValueError unpack_msg)
      end
  | 3%nat =>
      match result_l, x_l with
      | [y1; y2; y3], [x1; x2; x3] =>
          Ok (quadratic_extrap (y1, y2, y3) (x1, x2, x3))
      | _, _ => Err (ValueError unpack_msg)
      end
  | 4%nat =>
      match result_l, x_l with
      | [y1; y2; y3; y4], [x1; x2; x3; x4] =>
          Ok (cubic_extrap (y1, y2, y3, y4) (x1, x2, x3, x4))
      | _, _ => Err (ValueError unpack_msg)
      end
  | 5%nat =>
      match result_l, x_l with
      | [y1; y2; y3; y4; y5], [x1; x2; x3; x4; x5] =>
          Ok (quartic_extrap (y1, y2, y3, y4, y5) (x1, x2, x3, x4, x5))
      | _, _ => Err (ValueError unpack_msg)
      end
  | 6%nat =>
      match result_l, x_l with
      | [y1; y2; y3; y4; y5; y6], [x1; x2; x3; x4; x5; x6] =>
          Ok (quintic_extrap (y1, y2, y3, y4, y5, y6) (x1, x2, x3, x4, x5, x6))
      | _, _ => Err (ValueError unpack_msg)
      end
  | _ => Err (ValueError range_msg)
  end.

(** The [for pts in pts_l] loop, with [x_l] and [result_l] as built so far. *)
Fixpoint sample_loop (func : Args -> Kw -> Z -> result Y)
    (other_args : Args) (kwargs : Kw)
    (pts_l : list Z) (x_l : list R) (result_l : list Y)
    : traced (list R * list Y) :=
  match pts_l with
  | [] => tret (x_l, result_l)
  | pts :: rest =>
      let! grid := call (GridCall pts) (default_grid pts) in
      let! x := pure (np_index grid 1) in
      let x_l := x_l ++ [x] in
      let! result := call (FuncCall pts) (func other_args kwargs pts) in
      let result_l := result_l ++ [result] in
      sample_loop func other_args kwargs rest x_l result_l
  end.

Definition extrap_func (func : Args -> Kw -> Z -> result Y)
    (other_args : Args) (kwargs : Kw) (pts_l : list Z) : traced Y :=
  tbind (sample_loop func other_args kwargs pts_l [] [])
    (fun '(x_l, result_l) => pure (extrapolate (length pts_l) result_l x_l)).

Definition make_extrap_func (func : Args -> Kw -> Z -> result Y)
    : Args -> Kw -> list Z -> traced Y :=
  extrap_func func.

Definition logfunc (func : Args -> Kw -> Z -> result Y)
    (other_args : Args) (kwargs : Kw) (pts : Z) : result Y :=
  rmap ylog (func other_args kwargs pts).

Definition make_extrap_log_func (func : Args -> Kw -> Z -> result Y)
    : Args -> Kw -> list Z -> traced Y :=
  let exlog_func := make_extrap_func (logfunc func) in
  fun other_args kwargs pts_l => tmap yexp (exlog_func other_args kwargs pts_l).

End Wrapper.

(** ** Projection coefficient cache *)

(** The float operations [_cached_projection] uses, one array element at a
    time: scipy's [comb] and [gammaln] on integer arguments, float
    arithmetic, [numpy.exp] and [numpy.isnan]. *)
Class FloatOps (F : Type) : Type := {
  comb : Z -> Z -> F;
  gammaln : Z -> F;
  fadd : F -> F -> F;
  fsub : F -> F -> F;
  fmul : F -> F -> F;
  fdiv : F -> F -> F;
  fexp : F -> F;
  isnan : F -> bool }.

(** Calls to the library functions behind the coefficient formula. *)
Inductive libcall : Type :=
| CombCall
| GammalnCall.

(** The interpreter state the cache lives in: the arrays allocated so far,
    by address; the module-level dict [_projection_cache], which holds
    references to arrays; and the library calls made so far. *)
Record memory (F : Type) : Type := Memory {
  heap : list (list F);
  _projection_cache : gmap (Z * Z * Z) nat;
  libcalls : list libcall }.
Arguments Memory {F} heap _projection_cache libcalls.
Arguments heap {F} m.
Arguments _projection_cache {F} m.
Arguments libcalls {F} m.

Section ProjectionCache.
Context {F : Type} `{FloatOps F}.

Definition _lncomb (N k : Z) : F :=
  fsub (fsub (gammaln (N + 1)) (gammaln (k + 1))) (gammaln (N - k + 1)).

(** The direct form, lines [contrib = comb(..)*comb(..)] and
    [contrib /= comb(proj_from, hits)]. *)
Definition direct_contrib (proj_to proj_from hits : Z) : list F :=
  let proj_hits := arange (proj_to + 1) in
  let contrib :=
    zip_with fmul (comb proj_to <$> proj_hits)
      (comb (proj_from - proj_to) <$> ((fun j => hits - j)%Z <$> proj_hits)) in
  (fun c => fdiv c (comb proj_from hits)) <$> contrib.

(** The body of [if numpy.any(numpy.isnan(contrib))]. *)
Definition log_contrib (proj_to proj_from hits : Z) : list F :=
  let proj_hits := arange (proj_to + 1) in
  let lncontrib := _lncomb proj_to <$> proj_hits in
  let lncontrib :=
    zip_with fadd lncontrib
      (_lncomb (proj_from - proj_to) <$> ((fun j => hits - j)%Z <$> proj_hits)) in
  let lncontrib := (fun l => fsub l (_lncomb proj_from hits)) <$> lncontrib in
  fexp <$> lncontrib.

(** Returns the address of the coefficient array.  A lookup that finds no
    key is the [KeyError] the source catches. *)
Definition _cached_projection (proj_to proj_from hits : Z) (m : memory F)
    : nat * memory F :=
  let key := (proj_to, proj_from, hits) in
  match _projection_cache m !! key with
  | Some a => (a, m)
  | None =>
      let contrib := direct_contrib proj_to proj_from hits in
      let calls := libcalls m ++ [CombCall; CombCall; CombCall] in
      let '(contrib, calls) :=
        if existsb isnan contrib
        then (log_contrib proj_to proj_from hits,
              calls ++ replicate 9 GammalnCall)
        else (contrib, calls) in
      let a := length (heap m) in
      (a, {| heap := heap m ++ [contrib];
             _projection_cache := <[key := a]> (_projection_cache m);
             libcalls := calls |})
  end.

End ProjectionCache.

(** A caller that makes one call [_cached_projection(proj_to, proj_from,
    hits)] per key, in order, on the same module state: the addresses
    returned, and the memory at the end. *)
Fixpoint cached_projections {F : Type} `{FloatOps F}
    (keys : list (Z * Z * Z)) (m : memory F) : list nat * memory F :=
  match keys with
  | [] => ([], m)
  | (proj_to, proj_from, hits) :: rest =>
      let (a, m1) := _cached_projection proj_to proj_from hits m in
      let (l, m2) := cached_projections rest m1 in
      (a :: l, m2)
  end.

(** scipy's [comb(N, k)] in exact arithmetic: [N! / ((N-k)! k!)] where
    [0 <= k <= N], and 0 elsewhere. *)
Definition comb_exact (N k : Z) : R :=
  if ((k <=? N)%Z && (0 <=? N)%Z && (0 <=? k)%Z)%bool
  then IZR (Z.of_nat (fact (Z.to_nat N)))
       / (IZR (Z.of_nat (fact (Z.to_nat (N - k))))
          * IZR (Z.of_nat (fact (Z.to_nat k))))
  else 0.

(** Exact arithmetic as a float interface.  A value is a real number or
    not-a-number, [None]: an operation on not-a-number gives
    not-a-number, and so does one without a value, a division by zero or
    the log-gamma of a pole.  [gammaln(n)] is [ln((n-1)!)] for [n >= 1]. *)
#[export] Instance exact_ops : FloatOps (option R) := {|
  comb := fun N k => Some (comb_exact N k);
  gammaln := fun z =>
    if (0 <? z)%Z
    then Some (ln (IZR (Z.of_nat (fact (Z.to_nat (z - 1))))))
    else None;
  fadd := fun x y =>
    match x, y with Some a, Some b => Some (a + b) | _, _ => None end;
  fsub := fun x y =>
    match x, y with Some a, Some b => Some (a - b) | _, _ => None end;
  fmul := fun x y =>
    match x, y with Some a, Some b => Some (a * b) | _, _ => None end;
  fdiv := fun x y =>
    match x, y with
    | Some a, Some b => if Req_dec_T b 0 then None else Some (a / b)
    | _, _ => None
    end;
  fexp := fun x => match x with Some a => Some (exp a) | None => None end;
  isnan := fun x => match x with Some _ => false | None => true end |}.

(** ** One-sided first derivatives *)

(** The coefficients for the derivative at [xx[0]], row [output[0]]. *)
Definition start_coefficients (x0 x1 x2 x3 x4 : R) : list R :=
  let d10_0 := (- 1 + (- 1 + (- 2 * x0 + x1 + x2) * (- x0 + x3) / ((x0 -
    x1) * (- x0 + x2))) * (- x0 + x4) / (- x0 + x3)) / (- x0 + x4) in
  let d10_1 := - ((x0 - x2) * (x0 - x3) * (x0 - x4) / ((x0 - x1) * (x1 -
    x2) * (x1 - x3) * (x1 - x4))) in
  let d10_2 := (x0 - x1) * (x0 - x3) * (x0 - x4) / ((x0 - x2) * (x1 - x2)
    * (x2 - x3) * (x2 - x4)) in
  let d10_3 := - ((x0 - x1) * (x0 - x2) * (x0 - x4) / ((x0 - x3) * (- x1 +
    x3) * (- x2 + x3) * (x3 - x4))) in
  let d10_4 := (x0 - x1) * (x0 - x2) * (x0 - x3) / ((x0 - x4) * (x1 - x4)
    * (x2 - x4) * (x3 - x4)) in
  [d10_0; d10_1; d10_2; d10_3; d10_4].

(** The coefficients for the derivative at [xx[-1]], row [output[1]]. *)
Definition end_coefficients (xm1 xm2 xm3 xm4 xm5 : R) : list R :=
  let d1m1_m1 := (xm1 * ((3 * xm2 - 4 * xm1) * xm1 + xm3 * (- 2 * xm2 + 3
    * xm1)) + xm4 * (xm3 * (xm2 - 2 * xm1) + xm1 * (- 2 * xm2 + 3 * xm1))
    + xm5 * (xm3 * (xm2 - 2 * xm1) + xm4 * (xm3 + xm2 - 2 * xm1) + xm1 *
    (- 2 * xm2 + 3 * xm1))) / ((xm4 - xm1) * (- xm5 + xm1) * (- xm3 + xm1)
    * (- xm2 + xm1)) in
  let d1m1_m2 := (xm5 - xm1) * (xm4 - xm1) * (xm3 - xm1) / ((xm5 - xm2) *
    (- xm4 + xm2) * (- xm3 + xm2) * (xm2 - xm1)) in
  let d1m1_m3 := (xm5 - xm1) * (xm4 - xm1) * (xm2 - xm1) / ((xm5 - xm3) *
    (- xm4 + xm3) * (xm3 - xm2) * (xm3 - xm1)) in
  let d1m1_m4 := (xm5 - xm1) * (xm3 - xm1) * (xm2 - xm1) / ((xm5 - xm4) *
    (xm4 - xm3) * (xm4 - xm2) * (xm4 - xm1)) in
  let d1m1_m5 := (xm4 - xm1) * (xm3 - xm1) * (xm2 - xm1) / ((xm5 - xm4) *
    (xm5 - xm3) * (xm5 - xm2) * (- xm5 + xm1)) in
  [d1m1_m1; d1m1_m2; d1m1_m3; d1m1_m4; d1m1_m5].

(** Returns the 2x5 array [output] as its two rows. *)
Definition end_point_first_derivs (xx : list R) : result (list (list R)) :=
  let* x0 := np_index xx 0 in
  let* x1 := np_index xx 1 in
  let* x2 := np_index xx 2 in
  let* x3 := np_index xx 3 in
  let* x4 := np_index xx 4 in
  let* xm1 := np_index xx (-1) in
  let* xm2 := np_index xx (-2) in
  let* xm3 := np_index xx (-3) in
  let* xm4 := np_index xx (-4) in
  let* xm5 := np_index xx (-5) in
  Ok [start_coefficients x0 x1 x2 x3 x4;
      end_coefficients xm1 xm2 xm3 xm4 xm5].

(** The sum of a list of reals, and [numpy.dot] of two vectors. *)
Definition Rsum (l : list R) : R := fold_right Rplus 0 l.

Definition dot (u v : list R) : R := Rsum (zip_with Rmult u v).
(** ** Array reversal *)

(** An array of [n] axes as nested lists, the first axis outermost. *)
Fixpoint ndarray (n : nat) : Type :=
  match n with
  | O => R
  | S n' => list (ndarray n')
  end.

(** [arr[reverse_slice]], with one [slice(None, None, -1)] per axis.  The
    index is a list of slices, which the numpy this code was written for
    reads as the tuple of them. *)
Fixpoint reverse_array (n : nat) : ndarray n -> ndarray n :=
  match n with
  | O => fun arr => arr
  | S n' => fun arr => reverse (reverse_array n' <$> arr)
  end.

(** ** Trapezoidal rule *)

(** [numpy.diff] of a one-dimensional array. *)
Definition np_diff (xx : list R) : list R :=
  zip_with (fun a b => b - a) xx (drop 1 xx).

Definition trapz_args_msg : string :=
  "One and only one of xx or dx must be specified.".

(** The message of the length check, [%i] being the decimal form. *)
Definition trapz_length_msg (len_xx len_yy : nat) : string :=
  "Length of xx must be equal to length of yy along specified axis. Here len(xx) = "
  +:+ pretty len_xx +:+ " and yy.shape[axis] = " +:+ pretty len_yy +:+ ".".

(** [trapz] on a one-dimensional [yy], whose only axis is [axis = -1];
    [None] is an argument left at its default.  The slices [slice1],
    [slice2] and [sliceX] are then [yy[1:]], [yy[:-1]] and [dx[:]]. *)
Definition trapz (yy : list R) (xx dx : option (list R)) : result R :=
  let* dx :=
    match xx, dx with
    | None, None | Some _, Some _ => Err (ValueError trapz_args_msg)
    | Some xx, None => Ok (np_diff xx)
    | None, Some dx => Ok dx
    end in
  if decide (length yy = (length dx + 1)%nat)
  then Ok (Rsum (zip_with (fun d s => d * s / 2) dx
                   (zip_with Rplus (drop 1 yy) (removelast yy))))
  else Err (ValueError (trapz_length_msg (length dx + 1) (length yy))).

(** ** Specification-side notions *)

(** A polynomial by its coefficients, lowest degree first; one of degree at
    most [d] has at most [d + 1] coefficients. *)
Definition peval (p : list R) (x : R) : R :=
  fold_right (fun c acc => c + x * acc) 0 p.

(** The Lagrange basis polynomial of the node [xi], against the other
    nodes, evaluated at 0. *)
Definition basis0 (xi : R) (others : list R) : R :=
  fold_right (fun xj acc => xj / (xj - xi) * acc) 1 others.

Fixpoint lagrange_sum (before : list R) (pts : list (R * R)) : R :=
  match pts with
  | [] => 0
  | (x, y) :: rest =>
      y * basis0 x (before ++ (fst <$> rest)) + lagrange_sum (before ++ [x]) rest
  end.

(** The Lagrange interpolating polynomial through [(xs, ys)] at 0. *)
Definition lagrange_at_zero (xs ys : list R) : R :=
  lagrange_sum [] (zip xs ys).

Definition strictly_increasing (l : list R) : Prop :=
  forall (i j : nat) (a b : R),
    (i < j)%nat -> l !! i = Some a -> l !! j = Some b -> a < b.

(** The binomial coefficient, by Pascal's rule. *)
Fixpoint binomial (n k : nat) : nat :=
  match n, k with
  | _, O => 1
  | O, S _ => 0
  | S n', S k' => binomial n' k' + binomial n' k
  end.

(** [C(n, k)] of the specification, for integers: 0 outside [0 <= k <= n]. *)
Definition choose (n k : Z) : R :=
  if ((n <? 0)%Z || (k <? 0)%Z)%bool then 0
  else INR (binomial (Z.to_nat n) (Z.to_nat k)).

(** ** Definitions and tactics for the proofs *)

(** Solves the side conditions [e <> 0] of [field] from one hypothesis
    [a <> b] each. *)
Ltac distinct :=
  repeat split;
  match goal with
  | |- _ <> 0 =>
      match goal with
      | H : _ <> _ |- _ => solve [clear - H; lra]
      end
  end.

Ltac nodup_inv :=
  repeat match goal with
    | H : NoDup (_ :: _) |- _ => apply NoDup_cons in H; destruct H
    | H : _ ∉ _ :: _ |- _ => apply not_elem_of_cons in H; destruct H
    end.

Ltac scalar_ops := cbn [yadd ysub yneg smul sdiv scalar_ops].

(** The first [n] terms of a polynomial, written out. *)
Fixpoint poly_upto (n : nat) (p : list R) (x : R) : R :=
  match n with
  | O => 0
  | S n' => hd 0 p + x * poly_upto n' (tl p) x
  end.

(** Writes a polynomial out, given the lemma [upto] that does so. *)
Ltac expand_poly upto p :=
  rewrite !upto by assumption;
  cbn [poly_upto];
  generalize (hd 0 p);
  generalize (hd 0 (tl p));
  generalize (hd 0 (tl (tl p)));
  generalize (hd 0 (tl (tl (tl p))));
  generalize (hd 0 (tl (tl (tl (tl p)))));
  generalize (hd 0 (tl (tl (tl (tl (tl p))))));
  intros.

Ltac lagrange_unfold :=
  unfold lagrange_at_zero;
  cbn [zip zip_with lagrange_sum basis0 fold_right fmap list_fmap app fst].

(** The interior cubic of [default_grid], by its slope [c] at both ends. *)
Definition grid_cubic (c t : R) : R :=
  (2 * c - 19 / 10) * t ^ 3 + 3 * (19 / 20 - c) * t ^ 2 + c * t + 1 / 20.

(** The slope [dx_start / dq] of the interior cubic. *)
Definition grid_slope (num_pts : Z) : R :=
  1 / 20 * IZR (large_pts num_pts - 1) / IZR (small_pts num_pts - 1).

(** The grid in closed form: boundary points, then the cubic. *)
Definition grid_closed_form (num_pts : Z) : list R :=
  ((fun i => IZR i * (1 / 20 / IZR (small_pts num_pts - 1)))
     <$> seqZ 0 (small_pts num_pts - 1))
  ++ ((fun j => grid_cubic (grid_slope num_pts)
                  (IZR j / IZR (large_pts num_pts - 1)))
        <$> seqZ 0 (large_pts num_pts)).

(** The calls of a run in which nothing fails. *)
Definition calls_of (pts_l : list Z) : list event :=
  pts_l ≫= (fun pts => [GridCall pts; FuncCall pts]).

(** An entry on which the grid exists and the wrapped function returns. *)
Definition sample_ok {Y Args Kw : Type} (func : Args -> Kw -> Z -> result Y)
    (other_args : Args) (kwargs : Kw) (pts : Z) : Prop :=
  (2 <= pts / 10)%Z /\ exists y, func other_args kwargs pts = Ok y.

(** Every reference the dict holds points into the heap. *)
Definition cache_wf {F : Type} (m : memory F) : Prop :=
  forall key a, _projection_cache m !! key = Some a ->
                (a < length (heap m))%nat.

(** [logC(n,k) = lnGamma(n+1) - lnGamma(k+1) - lnGamma(n-k+1)]. *)
Definition log_choose {F : Type} `{FloatOps F} (n k : Z) : F :=
  fsub (fsub (gammaln (n + 1)) (gammaln (k + 1))) (gammaln (n - k + 1)).

(** The memory of a fresh interpreter: no array, an empty dict. *)
Definition empty_memory {F : Type} : memory F := Memory [] ∅ [].

(** The derivative of a polynomial given by its coefficients. *)
Fixpoint peval_deriv (p : list R) (x : R) : R :=
  match p with
  | [] => 0
  | _ :: q => peval q x + x * peval_deriv q x
  end.

(** The trapezoid sum over points [(x, y)], one pair of neighbours at a
    time. *)
Fixpoint trap_pts (pts : list (R * R)) : R :=
  match pts with
  | [] => 0
  | (x0, y0) :: rest =>
      match rest with
      | [] => 0
      | (x1, y1) :: _ => (x1 - x0) * (y1 + y0) / 2 + trap_pts rest
      end
  end.

(** The sum [trapz] returns, for spacings [dx]. *)
Definition trapz_sum (dx yy : list R) : R :=
  Rsum (zip_with (fun d s => d * s / 2) dx
          (zip_with Rplus (drop 1 yy) (removelast yy))).

(** The second point of [default_grid(pts)], the position [extrap_func]
    gives to the resolution [pts]. *)
Definition first_spacing (pts : Z) : R := 5 / 100 / IZR (pts / 10 - 1).

(** * Properties *)

(** ** Results and numpy operations *)

Lemma np_index_nonneg {A : Type} (a : list A) (i : nat) (v : A) :
  a !! i = Some v -> np_index a (Z.of_nat i) = Ok v.
Proof.
  intros Hv. pose proof (lookup_lt_Some _ _ _ Hv) as Hlt.
  unfold np_index.
  destruct (Z.ltb_spec (Z.of_nat i) 0); [lia|].
  destruct (Z.leb_spec 0 (Z.of_nat i)); [|lia].
  destruct (Z.ltb_spec (Z.of_nat i) (Z.of_nat (length a))); [|lia].
  cbn [andb]. rewrite Nat2Z.id, Hv. reflexivity.
Qed.

Lemma np_index_head {A : Type} (y : A) (ys : list A) :
  np_index (y :: ys) 0 = Ok y.
Proof. exact (np_index_nonneg (y :: ys) 0 y eq_refl). Qed.

Lemma np_index_from_end {A : Type} (a : list A) (i : nat) (v : A) :
  (0 < i <= length a)%nat -> a !! (length a - i)%nat = Some v ->
  np_index a (- Z.of_nat i) = Ok v.
Proof.
  intros Hi Hv. unfold np_index.
  destruct (Z.ltb_spec (- Z.of_nat i) 0); [|lia].
  destruct (Z.leb_spec 0 (- Z.of_nat i + Z.of_nat (length a))); [|lia].
  destruct (Z.ltb_spec (- Z.of_nat i + Z.of_nat (length a))
              (Z.of_nat (length a))); [|lia].
  cbn [andb].
  replace (Z.to_nat (- Z.of_nat i + Z.of_nat (length a)))
    with (length a - i)%nat by lia.
  rewrite Hv. reflexivity.
Qed.

Lemma np_index_short {A : Type} (a : list A) (i : nat) :
  (length a <= i)%nat -> np_index a (Z.of_nat i) = Err IndexError.
Proof.
  intros Hi. unfold np_index.
  destruct (Z.ltb_spec (Z.of_nat i) 0); [lia|].
  destruct (Z.ltb_spec (Z.of_nat i) (Z.of_nat (length a))); [lia|].
  rewrite andb_false_r. reflexivity.
Qed.

(** ** Polynomial extrapolators *)

Lemma peval_upto (n : nat) (p : list R) (x : R) :
  (length p <= n)%nat -> peval p x = poly_upto n p x.
Proof.
  revert p. induction n as [|n IH]; intros [|c p] Hlen; cbn in *;
    try reflexivity; try lia.
  - rewrite <- (IH []) by (cbn; lia). cbn. ring.
  - rewrite <- IH by lia. reflexivity.
Qed.

Lemma peval_0 (p : list R) : peval p 0 = hd 0 p.
Proof. destruct p; cbn; ring. Qed.

Lemma linear_extrap_poly (x1 x2 : R) (p : list R) :
  NoDup [x1; x2] -> (length p <= 2)%nat ->
  linear_extrap (peval p x1, peval p x2) (x1, x2) = peval p 0.
Proof.
  intros Hnd Hp. nodup_inv. expand_poly (peval_upto 2 p) p.
  unfold linear_extrap. scalar_ops. field. distinct.
Qed.

Lemma quadratic_extrap_poly (x1 x2 x3 : R) (p : list R) :
  NoDup [x1; x2; x3] -> (length p <= 3)%nat ->
  quadratic_extrap (peval p x1, peval p x2, peval p x3) (x1, x2, x3)
  = peval p 0.
Proof.
  intros Hnd Hp. nodup_inv. expand_poly (peval_upto 3 p) p.
  unfold quadratic_extrap. scalar_ops. field. distinct.
Qed.

Lemma cubic_extrap_poly (x1 x2 x3 x4 : R) (p : list R) :
  NoDup [x1; x2; x3; x4] -> (length p <= 4)%nat ->
  cubic_extrap (peval p x1, peval p x2, peval p x3, peval p x4)
    (x1, x2, x3, x4) = peval p 0.
Proof.
  intros Hnd Hp. nodup_inv. expand_poly (peval_upto 4 p) p.
  unfold cubic_extrap. scalar_ops. field. distinct.
Qed.

Lemma quartic_extrap_poly (x1 x2 x3 x4 x5 : R) (p : list R) :
  NoDup [x1; x2; x3; x4; x5] -> (length p <= 5)%nat ->
  quartic_extrap
    (peval p x1, peval p x2, peval p x3, peval p x4, peval p x5)
    (x1, x2, x3, x4, x5) = peval p 0.
Proof.
  intros Hnd Hp. nodup_inv. expand_poly (peval_upto 5 p) p.
  unfold quartic_extrap. scalar_ops. field. distinct.
Qed.

Lemma quintic_extrap_poly (x1 x2 x3 x4 x5 x6 : R) (p : list R) :
  NoDup [x1; x2; x3; x4; x5; x6] -> (length p <= 6)%nat ->
  quintic_extrap
    (peval p x1, peval p x2, peval p x3, peval p x4, peval p x5, peval p x6)
    (x1, x2, x3, x4, x5, x6) = peval p 0.
Proof.
  intros Hnd Hp. nodup_inv. expand_poly (peval_upto 6 p) p.
  unfold quintic_extrap. scalar_ops. field. distinct.
Qed.

Lemma linear_extrap_lagrange (x1 x2 y1 y2 : R) :
  NoDup [x1; x2] ->
  linear_extrap (y1, y2) (x1, x2) = lagrange_at_zero [x1; x2] [y1; y2].
Proof.
  intros Hnd. nodup_inv. lagrange_unfold.
  unfold linear_extrap. scalar_ops. field. distinct.
Qed.

Lemma quadratic_extrap_lagrange (x1 x2 x3 y1 y2 y3 : R) :
  NoDup [x1; x2; x3] ->
  quadratic_extrap (y1, y2, y3) (x1, x2, x3)
  = lagrange_at_zero [x1; x2; x3] [y1; y2; y3].
Proof.
  intros Hnd. nodup_inv. lagrange_unfold.
  unfold quadratic_extrap. scalar_ops. field. distinct.
Qed.

Lemma cubic_extrap_lagrange (x1 x2 x3 x4 y1 y2 y3 y4 : R) :
  NoDup [x1; x2; x3; x4] ->
  cubic_extrap (y1, y2, y3, y4) (x1, x2, x3, x4)
  = lagrange_at_zero [x1; x2; x3; x4] [y1; y2; y3; y4].
Proof.
  intros Hnd. nodup_inv. lagrange_unfold.
  unfold cubic_extrap. scalar_ops. field. distinct.
Qed.

Lemma quartic_extrap_lagrange (x1 x2 x3 x4 x5 y1 y2 y3 y4 y5 : R) :
  NoDup [x1; x2; x3; x4; x5] ->
  quartic_extrap (y1, y2, y3, y4, y5) (x1, x2, x3, x4, x5)
  = lagrange_at_zero [x1; x2; x3; x4; x5] [y1; y2; y3; y4; y5].
Proof.
  intros Hnd. nodup_inv. lagrange_unfold.
  unfold quartic_extrap. scalar_ops. field. distinct.
Qed.

(** For six points the weights are first brought over the denominator of
    the closed form, one basis polynomial at a time. *)
Lemma quintic_extrap_lagrange (x1 x2 x3 x4 x5 x6 y1 y2 y3 y4 y5 y6 : R) :
  NoDup [x1; x2; x3; x4; x5; x6] ->
  quintic_extrap (y1, y2, y3, y4, y5, y6) (x1, x2, x3, x4, x5, x6)
  = lagrange_at_zero [x1; x2; x3; x4; x5; x6] [y1; y2; y3; y4; y5; y6].
Proof.
  intros Hnd. nodup_inv. lagrange_unfold.
  pose (w1 := (x2 * x3 * x4 * x5 * x6 * ((x2 - x3) * (x2 - x4) * (x2 - x5) *
    (x2 - x6) * (x3 - x4) * (x3 - x5) * (x3 - x6) * (x4 - x5) * (x4 - x6) *
    (x5 - x6)))).
  pose (w2 := - (x1 * x3 * x4 * x5 * x6 * ((x1 - x3) * (x1 - x4) * (x1 - x5)
    * (x1 - x6) * (x3 - x4) * (x3 - x5) * (x3 - x6) * (x4 - x5) * (x4 - x6)
    * (x5 - x6)))).
  pose (w3 := (x1 * x2 * x4 * x5 * x6 * ((x1 - x2) * (x1 - x4) * (x1 - x5) *
    (x1 - x6) * (x2 - x4) * (x2 - x5) * (x2 - x6) * (x4 - x5) * (x4 - x6) *
    (x5 - x6)))).
  pose (w4 := - (x1 * x2 * x3 * x5 * x6 * ((x1 - x2) * (x1 - x3) * (x1 - x5)
    * (x1 - x6) * (x2 - x3) * (x2 - x5) * (x2 - x6) * (x3 - x5) * (x3 - x6)
    * (x5 - x6)))).
  pose (w5 := (x1 * x2 * x3 * x4 * x6 * ((x1 - x2) * (x1 - x3) * (x1 - x4) *
    (x1 - x6) * (x2 - x3) * (x2 - x4) * (x2 - x6) * (x3 - x4) * (x3 - x6) *
    (x4 - x6)))).
  pose (w6 := - (x1 * x2 * x3 * x4 * x5 * ((x1 - x2) * (x1 - x3) * (x1 - x4)
    * (x1 - x5) * (x2 - x3) * (x2 - x4) * (x2 - x5) * (x3 - x4) * (x3 - x5)
    * (x4 - x5)))).
  pose (D := (x1 - x2) * (x1 - x3) * (- x2 + x3) * (x1 - x4) * (- x2 + x4)
    * (- x3 + x4) * (x1 - x5) * (x2 - x5) * (x3 - x5) * (x4 - x5)
    * (x1 - x6) * (x2 - x6) * (x3 - x6) * (x4 - x6) * (x5 - x6)).
  replace (x2 / (x2 - x1) * (x3 / (x3 - x1) * (x4 / (x4 - x1) *
    (x5 / (x5 - x1) * (x6 / (x6 - x1) * 1))))) with (w1 / D)
    by (unfold w1, D; field; distinct).
  replace (x1 / (x1 - x2) * (x3 / (x3 - x2) * (x4 / (x4 - x2) *
    (x5 / (x5 - x2) * (x6 / (x6 - x2) * 1))))) with (w2 / D)
    by (unfold w2, D; field; distinct).
  replace (x1 / (x1 - x3) * (x2 / (x2 - x3) * (x4 / (x4 - x3) *
    (x5 / (x5 - x3) * (x6 / (x6 - x3) * 1))))) with (w3 / D)
    by (unfold w3, D; field; distinct).
  replace (x1 / (x1 - x4) * (x2 / (x2 - x4) * (x3 / (x3 - x4) *
    (x5 / (x5 - x4) * (x6 / (x6 - x4) * 1))))) with (w4 / D)
    by (unfold w4, D; field; distinct).
  replace (x1 / (x1 - x5) * (x2 / (x2 - x5) * (x3 / (x3 - x5) *
    (x4 / (x4 - x5) * (x6 / (x6 - x5) * 1))))) with (w5 / D)
    by (unfold w5, D; field; distinct).
  replace (x1 / (x1 - x6) * (x2 / (x2 - x6) * (x3 / (x3 - x6) *
    (x4 / (x4 - x6) * (x5 / (x5 - x6) * 1))))) with (w6 / D)
    by (unfold w6, D; field; distinct).
  unfold quintic_extrap. scalar_ops. fold D.
  match goal with
  | |- ?n / D = _ =>
      replace n
        with (y1 * w1 + y2 * w2 + y3 * w3 + y4 * w4 + y5 * w5 + y6 * w6)
        by (unfold w1, w2, w3, w4, w5, w6; ring)
  end.
  clearbody w1 w2 w3 w4 w5 w6 D.
  unfold Rdiv. ring.
Qed.

(** The extrapolators on arrays work one element at a time. *)
Lemma extrapolate_elementwise {idx : Type} (k : nat)
    (ys : list (array idx)) (xs : list R) (r : array idx) (e : idx) :
  extrapolate k ys xs = Ok r ->
  extrapolate k ((fun y => y e) <$> ys) xs = Ok (r e).
Proof.
  intros Hr.
  destruct k as [|[|[|[|[|[|[|k]]]]]]]; try discriminate.
  - destruct ys as [|y ys]; [discriminate|].
    cbn [extrapolate] in *.
    rewrite np_index_head in Hr. injection Hr as <-. apply np_index_head.
  - destruct ys as [|y1 [|y2 [|]]], xs as [|x1 [|x2 [|]]]; try discriminate.
    cbn in *. injection Hr as <-. reflexivity.
  - destruct ys as [|y1 [|y2 [|y3 [|]]]], xs as [|x1 [|x2 [|x3 [|]]]];
      try discriminate.
    cbn in *. injection Hr as <-. reflexivity.
  - destruct ys as [|y1 [|y2 [|y3 [|y4 [|]]]]],
      xs as [|x1 [|x2 [|x3 [|x4 [|]]]]]; try discriminate.
    cbn [extrapolate fmap list_fmap] in *. injection Hr as <-. reflexivity.
  - destruct ys as [|y1 [|y2 [|y3 [|y4 [|y5 [|]]]]]],
      xs as [|x1 [|x2 [|x3 [|x4 [|x5 [|]]]]]]; try discriminate.
    cbn [extrapolate fmap list_fmap] in *. injection Hr as <-. reflexivity.
  - destruct ys as [|y1 [|y2 [|y3 [|y4 [|y5 [|y6 [|]]]]]]],
      xs as [|x1 [|x2 [|x3 [|x4 [|x5 [|x6 [|]]]]]]]; try discriminate.
    cbn [extrapolate fmap list_fmap] in *. injection Hr as <-. reflexivity.
Qed.

(** C1. For [k] from 2 to 6 and [k] pairwise distinct positions [xs], the
    extrapolator of order [k] ([linear_extrap], [quadratic_extrap],
    [cubic_extrap], [quartic_extrap], [quintic_extrap], as [extrapolate]
    selects them) applied to the values of a polynomial [p] of degree at
    most [k - 1] at [xs] returns [p 0]; for array values it does so in
    every element; and on any values it equals the Lagrange interpolating
    polynomial through the [k] points, evaluated at 0. *)
Theorem extrapolators_exact (k : nat) (xs : list R) :
  (2 <= k <= 6)%nat -> length xs = k -> NoDup xs ->
  (forall p : list R, (length p <= k)%nat ->
     extrapolate k (peval p <$> xs) xs = Ok (peval p 0))
  /\ (forall (idx : Type) (p : idx -> list R),
        (forall e, (length (p e) <= k)%nat) ->
        exists r : array idx,
          extrapolate k ((fun x e => peval (p e) x) <$> xs) xs = Ok r
          /\ forall e, r e = peval (p e) 0)
  /\ (forall ys : list R, length ys = k ->
        extrapolate k ys xs = Ok (lagrange_at_zero xs ys)).
Proof.
  intros Hk Hlen Hnd.
  destruct k as [|[|[|[|[|[|[|k]]]]]]]; try lia; clear Hk.
  - destruct xs as [|x1 [|x2 [|]]]; try discriminate.
    split; [|split].
    + intros p Hp. cbn. f_equal. now apply linear_extrap_poly.
    + intros idx p Hp. eexists. split; [reflexivity|].
      intros e. exact (linear_extrap_poly x1 x2 (p e) Hnd (Hp e)).
    + intros [|y1 [|y2 [|]]]; try discriminate. intros _.
      cbn [extrapolate]. f_equal. now apply linear_extrap_lagrange.
  - destruct xs as [|x1 [|x2 [|x3 [|]]]]; try discriminate.
    split; [|split].
    + intros p Hp. cbn. f_equal. now apply quadratic_extrap_poly.
    + intros idx p Hp. eexists. split; [reflexivity|].
      intros e. exact (quadratic_extrap_poly x1 x2 x3 (p e) Hnd (Hp e)).
    + intros [|y1 [|y2 [|y3 [|]]]]; try discriminate. intros _.
      cbn [extrapolate]. f_equal. now apply quadratic_extrap_lagrange.
  - destruct xs as [|x1 [|x2 [|x3 [|x4 [|]]]]]; try discriminate.
    split; [|split].
    + intros p Hp. cbn [extrapolate fmap list_fmap]. f_equal.
      now apply cubic_extrap_poly.
    + intros idx p Hp. eexists. split; [reflexivity|].
      intros e. exact (cubic_extrap_poly x1 x2 x3 x4 (p e) Hnd (Hp e)).
    + intros [|y1 [|y2 [|y3 [|y4 [|]]]]]; try discriminate. intros _.
      cbn [extrapolate]. f_equal. now apply cubic_extrap_lagrange.
  - destruct xs as [|x1 [|x2 [|x3 [|x4 [|x5 [|]]]]]]; try discriminate.
    split; [|split].
    + intros p Hp. cbn [extrapolate fmap list_fmap]. f_equal.
      now apply quartic_extrap_poly.
    + intros idx p Hp. eexists. split; [reflexivity|].
      intros e. exact (quartic_extrap_poly x1 x2 x3 x4 x5 (p e) Hnd (Hp e)).
    + intros [|y1 [|y2 [|y3 [|y4 [|y5 [|]]]]]]; try discriminate. intros _.
      cbn [extrapolate]. f_equal. now apply quartic_extrap_lagrange.
  - destruct xs as [|x1 [|x2 [|x3 [|x4 [|x5 [|x6 [|]]]]]]];
      try discriminate.
    split; [|split].
    + intros p Hp. cbn [extrapolate fmap list_fmap]. f_equal.
      now apply quintic_extrap_poly.
    + intros idx p Hp. eexists. split; [reflexivity|].
      intros e.
      exact (quintic_extrap_poly x1 x2 x3 x4 x5 x6 (p e) Hnd (Hp e)).
    + intros [|y1 [|y2 [|y3 [|y4 [|y5 [|y6 [|]]]]]]]; try discriminate.
      intros _. cbn [extrapolate]. f_equal.
      now apply quintic_extrap_lagrange.
Qed.

Lemma extrapolators_exact_witness :
  NoDup [1; 2]
  /\ extrapolate 2 (peval [3; 4] <$> [1; 2]) [1; 2] = Ok (peval [3; 4] 0).
Proof.
  assert (Hnd : NoDup [1; 2]).
  { apply NoDup_cons. split; [|apply NoDup_singleton].
    intros Hin. apply list_elem_of_singleton in Hin. lra. }
  split; [exact Hnd|].
  refine (proj1 (extrapolators_exact 2 [1; 2] _ eq_refl Hnd) [3; 4] _);
    cbn; lia.
Defined.

(** ** Grid generator *)

Lemma np_index_ok {A : Type} (a : list A) (i : Z) (v : A) :
  (0 <= i)%Z -> a !! Z.to_nat i = Some v -> np_index a i = Ok v.
Proof.
  intros Hi Hv. replace i with (Z.of_nat (Z.to_nat i)) by lia.
  now apply np_index_nonneg.
Qed.

Lemma np_index_neg_ok {A : Type} (a : list A) (i : Z) (v : A) :
  (i < 0)%Z -> a !! Z.to_nat (i + Z.of_nat (length a)) = Some v ->
  (0 <= i + Z.of_nat (length a))%Z -> np_index a i = Ok v.
Proof.
  intros Hi Hv Hn. replace i with (- Z.of_nat (Z.to_nat (- i)))%Z by lia.
  apply np_index_from_end; [lia|].
  replace (length a - Z.to_nat (- i))%nat
    with (Z.to_nat (i + Z.of_nat (length a))) by lia.
  exact Hv.
Qed.

Lemma np_index_neg_err {A : Type} (a : list A) (i : Z) :
  (i + Z.of_nat (length a) < 0)%Z -> np_index a i = Err IndexError.
Proof.
  intros Hi. unfold np_index.
  destruct (Z.ltb_spec i 0); [|lia].
  destruct (Z.leb_spec 0 (i + Z.of_nat (length a))); [lia|].
  reflexivity.
Qed.

Lemma seqZ_snoc (m n : Z) :
  (0 < n)%Z -> seqZ m n = seqZ m (n - 1) ++ [(m + (n - 1))%Z].
Proof.
  intros Hn. replace n with (Z.of_nat (S (Z.to_nat (n - 1)))) at 1 by lia.
  rewrite seqZ_S. rewrite Z2Nat.id by lia. reflexivity.
Qed.

Lemma lookup_fmap_seqZ {B : Type} (f : Z -> B) (n : Z) (i : nat) :
  (Z.of_nat i < n)%Z -> (f <$> seqZ 0 n) !! i = Some (f (Z.of_nat i)).
Proof.
  intros Hi. rewrite list_lookup_fmap, lookup_seqZ_lt by exact Hi.
  reflexivity.
Qed.

Lemma lookup_fmap_seqZ_inv {B : Type} (f : Z -> B) (n : Z) (i : nat) (v : B) :
  (f <$> seqZ 0 n) !! i = Some v -> (Z.of_nat i < n)%Z /\ v = f (Z.of_nat i).
Proof.
  intros Hv. apply list_lookup_fmap_Some in Hv as (z & -> & Hz).
  apply lookup_seqZ in Hz as [-> Hlt]. split; [exact Hlt|reflexivity].
Qed.

Lemma linspace_many (start stop : R) (num : Z) :
  (1 < num)%Z ->
  linspace start stop num
  = (fun i => IZR i * ((stop - start) / IZR (num - 1)) + start)
      <$> seqZ 0 num.
Proof.
  intros Hnum. unfold linspace, arange.
  destruct (Z.leb_spec num 0); [lia|].
  destruct (Z.eqb_spec num 1); [lia|].
  cbv zeta. rewrite (seqZ_snoc 0 num) by lia.
  rewrite fmap_app. cbn [fmap list_fmap]. rewrite removelast_last.
  do 2 f_equal. rewrite Z.add_0_l.
  assert (IZR (num - 1) <> 0) by (apply not_0_IZR; lia).
  field. assumption.
Qed.

Lemma linspace_length (start stop : R) (num : Z) :
  length (linspace start stop num) = Z.to_nat num.
Proof.
  unfold linspace, arange.
  destruct (Z.leb_spec num 0); [cbn; lia|].
  destruct (Z.eqb_spec num 1) as [->|]; [reflexivity|].
  cbv zeta. rewrite (seqZ_snoc 0 num) by lia.
  rewrite fmap_app. cbn [fmap list_fmap]. rewrite removelast_last.
  rewrite length_app, length_fmap, length_seqZ. cbn. lia.
Qed.

Lemma grid_cubic_increasing (c u v : R) :
  0 < c <= 27 / 20 -> 0 <= v -> v < u -> u <= 1 ->
  grid_cubic c v < grid_cubic c u.
Proof.
  intros Hc Hv Huv Hu.
  pose (t := 3 * (u + v) - 2 * (u * u + u * v + v * v)).
  assert (Ht0 : 0 <= t) by (unfold t; nra).
  assert (Ht1 : t <= 3 / 2).
  { unfold t.
    pose proof (pow2_ge_0 (u - 1 / 2 + (v - 1 / 2))).
    pose proof (pow2_ge_0 (u - 1 / 2)). pose proof (pow2_ge_0 (v - 1 / 2)).
    nra. }
  assert (Hg : 0 < c + (19 / 20 - c) * t).
  { destruct (Rle_dec c (19 / 20)); nra. }
  apply Rlt_0_minus.
  replace (grid_cubic c u - grid_cubic c v)
    with ((u - v) * (c + (19 / 20 - c) * t)) by (unfold grid_cubic, t; field).
  apply Rmult_lt_0_compat; lra.
Qed.

Lemma grid_cubic_0 (c : R) : grid_cubic c 0 = 1 / 20.
Proof. unfold grid_cubic. field. Qed.

Lemma grid_cubic_1 (c : R) : grid_cubic c 1 = 1.
Proof. unfold grid_cubic. field. Qed.

Lemma large_pts_bounds (n : Z) :
  (2 <= small_pts n)%Z ->
  (9 * small_pts n + 1 <= large_pts n <= 9 * small_pts n + 10)%Z.
Proof. unfold large_pts, small_pts. Z.div_mod_to_equations. lia. Qed.

Lemma default_grid_eq (n : Z) :
  (2 <= small_pts n)%Z -> default_grid n = Ok (grid_closed_form n).
Proof.
  intros Hs. pose proof (large_pts_bounds n Hs) as HL.
  unfold default_grid, boundary_grid, grid_closed_form, grid_slope.
  generalize dependent (large_pts n). generalize dependent (small_pts n).
  intros s Hs L HL.
  assert (HS1 : IZR (s - 1) <> 0) by (apply not_0_IZR; lia).
  assert (HL1 : IZR (L - 1) <> 0) by (apply not_0_IZR; lia).
  rewrite !linspace_many by lia.
  set (fb := fun i : Z => IZR i * ((5 / 100 - 0) / IZR (s - 1)) + 0).
  set (fq := fun i : Z => IZR i * ((1 - 0) / IZR (L - 1)) + 0).
  rewrite (np_index_ok _ 1 (fq 1%Z)), (np_index_ok _ 0 (fq 0%Z));
    try lia; try (apply (lookup_fmap_seqZ fq); lia).
  assert (Hlen : length (fb <$> seqZ 0 s) = Z.to_nat s)
    by (rewrite length_fmap, length_seqZ; reflexivity).
  rewrite (np_index_neg_ok _ (-1) (fb (s - 1)%Z));
    [ | lia | rewrite Hlen | rewrite Hlen; lia ].
  2:{ replace (Z.to_nat (-1 + Z.of_nat (Z.to_nat s))) with (Z.to_nat (s - 1))
        by lia.
      rewrite (lookup_fmap_seqZ fb) by lia. f_equal. f_equal. lia. }
  rewrite (np_index_neg_ok _ (-2) (fb (s - 2)%Z));
    [ | lia | rewrite Hlen | rewrite Hlen; lia ].
  2:{ replace (Z.to_nat (-2 + Z.of_nat (Z.to_nat s))) with (Z.to_nat (s - 2))
        by lia.
      rewrite (lookup_fmap_seqZ fb) by lia. f_equal. f_equal. lia. }
  cbn [rbind]. f_equal. f_equal.
  - rewrite (seqZ_snoc 0 s) by lia. rewrite fmap_app. cbn [fmap list_fmap].
    rewrite removelast_last. apply list_fmap_ext. intros i z _.
    unfold fb. field. exact HS1.
  - rewrite <- list_fmap_compose. apply list_fmap_ext. intros i z _.
    unfold compose, grid_cubic, fb, fq. rewrite !minus_IZR in *.
    field. split; assumption.
Qed.

Lemma Rdiv_le_bound (a b c : R) : 0 < b -> a <= c * b -> a / b <= c.
Proof.
  intros Hb Ha. apply Rmult_le_reg_r with b; [exact Hb|].
  unfold Rdiv. rewrite Rmult_assoc, Rinv_l by lra. lra.
Qed.

Lemma Rdiv_lt_bound (a b c : R) : 0 < b -> a < c * b -> a / b < c.
Proof.
  intros Hb Ha. apply Rmult_lt_reg_r with b; [exact Hb|].
  unfold Rdiv. rewrite Rmult_assoc, Rinv_l by lra. lra.
Qed.

Lemma Rdiv_nonneg (a b : R) : 0 <= a -> 0 < b -> 0 <= a / b.
Proof.
  intros Ha Hb. apply Rmult_le_pos; [exact Ha|].
  apply Rlt_le, Rinv_0_lt_compat, Hb.
Qed.

Lemma grid_slope_bounds (n : Z) :
  (2 <= small_pts n)%Z -> 0 < grid_slope n <= 27 / 20.
Proof.
  intros Hs. pose proof (large_pts_bounds n Hs) as HL. unfold grid_slope.
  generalize dependent (large_pts n). generalize dependent (small_pts n).
  intros s Hs L HL.
  assert (HS : 1 <= IZR (s - 1)) by (apply IZR_le; lia).
  assert (HL0 : 1 <= IZR (L - 1)) by (apply IZR_le; lia).
  assert (HLS : IZR (L - 1) <= 27 * IZR (s - 1)).
  { rewrite <- mult_IZR. apply IZR_le. lia. }
  split.
  - apply Rdiv_lt_0_compat; lra.
  - apply Rdiv_le_bound; lra.
Qed.

Lemma grid_closed_form_length (n : Z) :
  (2 <= small_pts n)%Z -> length (grid_closed_form n) = Z.to_nat n.
Proof.
  intros Hs. unfold grid_closed_form.
  rewrite length_app, !length_fmap, !length_seqZ.
  unfold large_pts, small_pts in *. Z.div_mod_to_equations. lia.
Qed.

(** An entry of the boundary segment lies below 0.05. *)
Lemma boundary_entry (n : Z) (i : nat) (a : R) :
  (2 <= small_pts n)%Z ->
  ((fun i => IZR i * (1 / 20 / IZR (small_pts n - 1)))
     <$> seqZ 0 (small_pts n - 1)) !! i = Some a ->
  (Z.of_nat i < small_pts n - 1)%Z
  /\ a = IZR (Z.of_nat i) * (1 / 20 / IZR (small_pts n - 1))
  /\ 0 <= a < 1 / 20.
Proof.
  intros Hs Ha. apply lookup_fmap_seqZ_inv in Ha as [Hi ->].
  split; [exact Hi|]. split; [reflexivity|].
  assert (HS : 1 <= IZR (small_pts n - 1)) by (apply IZR_le; lia).
  assert (H0 : 0 <= IZR (Z.of_nat i)) by (apply IZR_le; lia).
  assert (H1 : IZR (Z.of_nat i) < IZR (small_pts n - 1))
    by (apply IZR_lt; lia).
  set (S1 := IZR (small_pts n - 1)) in *. set (x := IZR (Z.of_nat i)) in *.
  replace (x * (1 / 20 / S1)) with (x / S1 * (1 / 20)) by (field; lra).
  assert (0 <= x / S1 < 1).
  { split; [apply Rdiv_nonneg; lra|].
    apply Rdiv_lt_bound; lra. }
  lra.
Qed.

(** An entry of the interior segment is the cubic at a parameter in [0,1]. *)
Lemma interior_entry (n : Z) (j : nat) (a : R) :
  (2 <= small_pts n)%Z ->
  ((fun j => grid_cubic (grid_slope n) (IZR j / IZR (large_pts n - 1)))
     <$> seqZ 0 (large_pts n)) !! j = Some a ->
  (Z.of_nat j < large_pts n)%Z
  /\ a = grid_cubic (grid_slope n)
           (IZR (Z.of_nat j) / IZR (large_pts n - 1))
  /\ 0 <= IZR (Z.of_nat j) / IZR (large_pts n - 1) <= 1.
Proof.
  intros Hs Ha. pose proof (large_pts_bounds n Hs) as HL.
  apply lookup_fmap_seqZ_inv in Ha as [Hj ->].
  split; [exact Hj|]. split; [reflexivity|].
  assert (HL1 : 1 <= IZR (large_pts n - 1)) by (apply IZR_le; lia).
  assert (H0 : 0 <= IZR (Z.of_nat j)) by (apply IZR_le; lia).
  assert (H1 : IZR (Z.of_nat j) <= IZR (large_pts n - 1))
    by (apply IZR_le; lia).
  split; [apply Rdiv_nonneg; lra|].
  apply Rdiv_le_bound; lra.
Qed.

Lemma grid_closed_form_increasing (n : Z) :
  (2 <= small_pts n)%Z -> strictly_increasing (grid_closed_form n).
Proof.
  intros Hs i j a b Hij Ha Hb. unfold grid_closed_form in *.
  pose proof (grid_slope_bounds n Hs) as Hc.
  pose proof (large_pts_bounds n Hs) as HL.
  assert (HS : 1 <= IZR (small_pts n - 1)) by (apply IZR_le; lia).
  assert (HL1 : 1 <= IZR (large_pts n - 1)) by (apply IZR_le; lia).
  apply lookup_app_Some in Ha as [Ha | [Hia Ha]];
    apply lookup_app_Some in Hb as [Hb | [Hjb Hb]].
  - apply (boundary_entry n _ _ Hs) in Ha as (_ & -> & _).
    apply (boundary_entry n _ _ Hs) in Hb as (_ & -> & _).
    apply Rmult_lt_compat_r; [apply Rdiv_lt_0_compat; lra|].
    apply IZR_lt. lia.
  - apply (boundary_entry n _ _ Hs) in Ha as (_ & _ & Ha).
    apply (interior_entry n _ _ Hs) in Hb as (_ & -> & Hq).
    destruct Hq as [[Hq | <-] Hq1].
    + pose proof (grid_cubic_increasing (grid_slope n) _ 0 Hc
                    (Rle_refl 0) Hq Hq1) as Hmono.
      rewrite grid_cubic_0 in Hmono. lra.
    + rewrite grid_cubic_0. lra.
  - apply lookup_lt_Some in Hb. lia.
  - apply (interior_entry n _ _ Hs) in Ha as (Hi & -> & Hqa).
    apply (interior_entry n _ _ Hs) in Hb as (Hj & -> & Hqb).
    apply grid_cubic_increasing; try tauto.
    apply Rmult_lt_compat_r; [apply Rinv_0_lt_compat; lra|].
    apply IZR_lt. lia.
Qed.

Lemma grid_closed_form_first (n : Z) :
  (2 <= small_pts n)%Z -> grid_closed_form n !! 0%nat = Some 0.
Proof.
  intros Hs. unfold grid_closed_form.
  rewrite lookup_app_l by (rewrite length_fmap, length_seqZ; lia).
  rewrite lookup_fmap_seqZ by lia. f_equal.
  change (Z.of_nat 0) with 0%Z. apply Rmult_0_l.
Qed.

Lemma grid_closed_form_last (n : Z) :
  (2 <= small_pts n)%Z -> last (grid_closed_form n) = Some 1.
Proof.
  intros Hs. pose proof (large_pts_bounds n Hs) as HL.
  unfold grid_closed_form.
  rewrite (seqZ_snoc 0 (large_pts n)) by lia.
  rewrite fmap_app, app_assoc. cbn [fmap list_fmap]. rewrite last_snoc.
  f_equal. rewrite Z.add_0_l.
  replace (IZR (large_pts n - 1) / IZR (large_pts n - 1)) with 1.
  - apply grid_cubic_1.
  - field. apply not_0_IZR. lia.
Qed.

(** C2. For a positive [num_pts] whose boundary segment has at least two
    points, [default_grid num_pts] returns a grid that is strictly
    increasing, starts at 0, ends at exactly 1, has [num_pts] entries, and
    lies in [0, 1]. *)
Theorem default_grid_valid (num_pts : Z) :
  (0 < num_pts)%Z -> (2 <= num_pts / 10)%Z ->
  exists grid : list R,
    default_grid num_pts = Ok grid
    /\ strictly_increasing grid
    /\ grid !! 0%nat = Some 0
    /\ last grid = Some 1
    /\ length grid = Z.to_nat num_pts
    /\ Forall (fun x => 0 <= x <= 1) grid.
Proof.
  intros Hpos Hs. fold (small_pts num_pts) in Hs.
  exists (grid_closed_form num_pts).
  pose proof (grid_closed_form_increasing num_pts Hs) as Hinc.
  pose proof (grid_closed_form_first num_pts Hs) as Hfirst.
  pose proof (grid_closed_form_last num_pts Hs) as Hlast.
  repeat split; try assumption.
  - now apply default_grid_eq.
  - now apply grid_closed_form_length.
  - apply Forall_lookup_2. intros i x Hx.
    rewrite last_lookup in Hlast.
    pose proof (lookup_lt_Some _ _ _ Hx) as Hi.
    split.
    + destruct i as [|i].
      * rewrite Hfirst in Hx. injection Hx as <-. lra.
      * apply Rlt_le. apply (Hinc 0%nat (S i)); [lia | assumption..].
    + destruct (decide (i = pred (length (grid_closed_form num_pts))))
        as [->|Hne].
      * rewrite Hlast in Hx. injection Hx as <-. lra.
      * apply Rlt_le.
        apply (Hinc i (pred (length (grid_closed_form num_pts))));
          [lia | assumption..].
Qed.

Lemma default_grid_valid_witness :
  exists grid : list R,
    default_grid 20 = Ok grid
    /\ strictly_increasing grid
    /\ grid !! 0%nat = Some 0
    /\ last grid = Some 1
    /\ length grid = 20%nat
    /\ Forall (fun x => 0 <= x <= 1) grid.
Proof.
  apply (default_grid_valid 20); [lia | cbv; discriminate].
Defined.

(** Where the grid exists it has a second point, the spacing that
    [extrap_func] reads. *)
Lemma default_grid_second (pts : Z) :
  (2 <= pts / 10)%Z ->
  exists (grid : list R) (x : R),
    default_grid pts = Ok grid /\ np_index grid 1 = Ok x.
Proof.
  intros Hs. fold (small_pts pts) in Hs.
  exists (grid_closed_form pts).
  pose proof (grid_closed_form_length pts Hs) as Hlen.
  destruct (lookup_lt_is_Some_2 (grid_closed_form pts) 1) as [x Hx].
  { rewrite Hlen. unfold small_pts in Hs. Z.div_mod_to_equations. lia. }
  exists x. split; [now apply default_grid_eq|].
  now apply np_index_ok.
Qed.

Lemma np_index_err {A : Type} (a : list A) (i : Z) (e : exn) :
  np_index a i = Err e -> e = IndexError.
Proof.
  unfold np_index. intros He.
  repeat match type of He with
    | context [if ?b then _ else _] => destruct b
    | context [match ?o with Some _ => _ | None => _ end] => destruct o
    end; congruence.
Qed.

(** Below twenty points the boundary segment is too short and reading its
    last two points fails. *)
Lemma default_grid_small (pts : Z) :
  (pts / 10 < 2)%Z -> default_grid pts = Err IndexError.
Proof.
  intros Hs. fold (small_pts pts) in Hs. unfold default_grid, boundary_grid.
  destruct (np_index (linspace 0 1 (large_pts pts)) 1) as [q1|e] eqn:Hq1.
  2:{ apply np_index_err in Hq1 as ->. reflexivity. }
  destruct (np_index (linspace 0 1 (large_pts pts)) 0) as [q0|e] eqn:Hq0.
  2:{ apply np_index_err in Hq0 as ->. reflexivity. }
  cbn [rbind].
  destruct (np_index (linspace 0 (5 / 100) (small_pts pts)) (-1))
    as [g1|e] eqn:Hg1.
  2:{ apply np_index_err in Hg1 as ->. reflexivity. }
  cbn [rbind].
  rewrite np_index_neg_err; [reflexivity|].
  rewrite linspace_length. lia.
Qed.

(** C7, as the code has it.  [default_grid 10] computes [small_pts = 1],
    the one-point boundary array [linspace(0, 0.05, 1) = [0]] and ten
    interior parameters, and then fails with [IndexError] on reading the
    second-last boundary point [grid[-2]]; it returns no grid. *)
Theorem default_grid_10 :
  small_pts 10 = 1%Z
  /\ boundary_grid 10 = [0]
  /\ large_pts 10 = 10%Z
  /\ length (linspace 0 1 (large_pts 10)) = 10%nat
  /\ np_index (boundary_grid 10) (-1) = Ok 0
  /\ np_index (boundary_grid 10) (-2) = Err IndexError
  /\ default_grid 10 = Err IndexError.
Proof.
  repeat split; reflexivity.
Qed.

(** C7 as stated fails: the call does not return a grid. *)
Lemma default_grid_10_returns_no_grid :
  ~ (exists grid : list R, default_grid 10 = Ok grid).
Proof.
  intros [grid Hgrid].
  rewrite (default_grid_small 10) in Hgrid by (cbv; reflexivity).
  discriminate.
Qed.

(** ** Extrapolation wrapper *)

Section WrapperFacts.
Context {Y : Type} `{Elementwise Y} {Args Kw : Type}.
Implicit Types (func : Args -> Kw -> Z -> result Y).
Implicit Types (other_args : Args) (kwargs : Kw) (pts_l : list Z).


Lemma sample_loop_ok func other_args kwargs pts_l x_l result_l :
  Forall (sample_ok func other_args kwargs) pts_l ->
  exists xs ys,
    sample_loop func other_args kwargs pts_l x_l result_l
    = (calls_of pts_l, Ok (x_l ++ xs, result_l ++ ys))
    /\ length xs = length pts_l
    /\ Forall2 (fun pts y => func other_args kwargs pts = Ok y) pts_l ys.
Proof.
  revert x_l result_l. induction pts_l as [|pts rest IH];
    intros x_l result_l Hok.
  - exists [], []. rewrite !app_nil_r. repeat split. constructor.
  - apply Forall_cons in Hok as [[Hpts [y Hy]] Hrest].
    destruct (default_grid_second pts Hpts) as (grid & x & Hgrid & Hx).
    destruct (IH (x_l ++ [x]) (result_l ++ [y]) Hrest)
      as (xs & ys & Hloop & Hlen & Hys).
    exists (x :: xs), (y :: ys).
    cbn [sample_loop]. rewrite Hgrid, Hy. unfold call, pure, tbind.
    rewrite Hx, Hloop. rewrite <- !app_assoc. repeat split.
    + cbn. now rewrite Hlen.
    + now constructor.
Qed.

Lemma sample_loop_ext func func' other_args kwargs pts_l x_l result_l :
  (forall pts, func other_args kwargs pts = func' other_args kwargs pts) ->
  sample_loop func other_args kwargs pts_l x_l result_l
  = sample_loop func' other_args kwargs pts_l x_l result_l.
Proof.
  intros Hext. revert x_l result_l.
  induction pts_l as [|pts rest IH]; intros x_l result_l; [reflexivity|].
  cbn [sample_loop]. rewrite Hext. unfold tbind.
  destruct (call (GridCall pts) (default_grid pts)) as [t1 [grid|e]];
    [|reflexivity].
  destruct (pure (np_index grid 1)) as [t2 [x|e]]; [|reflexivity].
  destruct (call (FuncCall pts) (func' other_args kwargs pts))
    as [t3 [y|e]]; [|reflexivity].
  now rewrite IH.
Qed.



Lemma extrap_func_ok func other_args kwargs pts_l :
  Forall (sample_ok func other_args kwargs) pts_l ->
  exists xs ys,
    extrap_func func other_args kwargs pts_l
    = (calls_of pts_l, extrapolate (length pts_l) ys xs)
    /\ length xs = length pts_l
    /\ Forall2 (fun pts y => func other_args kwargs pts = Ok y) pts_l ys.
Proof.
  intros Hok.
  destruct (sample_loop_ok func other_args kwargs pts_l [] [] Hok)
    as (xs & ys & Hloop & Hlen & Hys).
  exists xs, ys. unfold extrap_func. rewrite Hloop.
  cbn. rewrite app_nil_r. repeat split; assumption.
Qed.

End WrapperFacts.

Lemma extrap_func_ext {Y : Type} `{Elementwise Y} {Args Kw : Type}
    (func func' : Args -> Kw -> Z -> result Y)
    (other_args : Args) (kwargs : Kw) (pts_l : list Z) :
  (forall pts, func other_args kwargs pts = func' other_args kwargs pts) ->
  extrap_func func other_args kwargs pts_l
  = extrap_func func' other_args kwargs pts_l.
Proof.
  intros Hext. unfold extrap_func.
  now rewrite (sample_loop_ext func func').
Qed.

Lemma extrap_log_func_of_exp {Y : Type} `{Elementwise Y} {Args Kw : Type}
    (g : Args -> Kw -> Z -> result Y)
    (other_args : Args) (kwargs : Kw) (pts_l : list Z) :
  (forall y : Y, ylog (yexp y) = y) ->
  make_extrap_log_func (fun a kw pts => rmap yexp (g a kw pts))
    other_args kwargs pts_l
  = tmap yexp (make_extrap_func g other_args kwargs pts_l).
Proof.
  intros Hlaw. unfold make_extrap_log_func, make_extrap_func. f_equal.
  apply extrap_func_ext. intros pts. unfold logfunc.
  destruct (g other_args kwargs pts) as [y|e]; cbn; [|reflexivity].
  now rewrite Hlaw.
Qed.




(** C9, as the code has it.  For one resolution on which the grid exists
    ([floor(pts/10) >= 2]) and the wrapped function returns [y], the
    extrapolated result is [y] itself, for scalar and for array results. *)
Theorem extrap_func_single {Y : Type} `{Elementwise Y} {Args Kw : Type}
    (func : Args -> Kw -> Z -> result Y)
    (other_args : Args) (kwargs : Kw) (pts : Z) (y : Y) :
  (2 <= pts / 10)%Z -> func other_args kwargs pts = Ok y ->
  make_extrap_func func other_args kwargs [pts]
  = ([GridCall pts; FuncCall pts], Ok y).
Proof.
  intros Hpts Hy. unfold make_extrap_func.
  destruct (extrap_func_ok func other_args kwargs [pts])
    as (xs & ys & -> & _ & Hys).
  { constructor; [|constructor]. split; [exact Hpts|now exists y]. }
  apply Forall2_cons_inv_l in Hys as (y' & ys' & Hy' & Hnil & ->).
  apply Forall2_nil_inv_l in Hnil as ->.
  rewrite Hy in Hy'. injection Hy' as <-.
  cbn [length extrapolate]. now rewrite np_index_head.
Qed.

Lemma extrap_func_single_witness :
  make_extrap_func (fun (_ _ : unit) (_ : Z) => Ok 7) tt tt [20%Z]
  = ([GridCall 20; FuncCall 20], Ok 7)
  /\ make_extrap_func (fun (_ _ : unit) (_ : Z) => Ok (fun e : bool => 7))
       tt tt [20%Z]
     = ([GridCall 20; FuncCall 20], Ok (fun e : bool => 7)).
Proof.
  split; apply extrap_func_single; try reflexivity; cbv; discriminate.
Defined.

(** C9 as stated fails: on the single resolution 10 the call raises the
    [IndexError] of [default_grid(10)] and returns no sample. *)
Lemma extrap_func_single_ten_fails :
  make_extrap_func (fun (_ _ : unit) (_ : Z) => Ok 7) tt tt [10%Z]
  = ([GridCall 10], Err IndexError)
  /\ snd (make_extrap_func (fun (_ _ : unit) (_ : Z) => Ok 7) tt tt [10%Z])
     <> Ok 7.
Proof. split; [reflexivity|discriminate]. Qed.




(** C6. [make_extrap_log_func f] is the exponential of
    [make_extrap_func] applied to the logarithm of [f]; hence on
    [f = exp . g], for scalar and for array results, it returns the
    exponential of what [make_extrap_func g] returns. *)
Theorem extrap_log_func_spec :
  (forall (Y : Type) (ops : Elementwise Y) (Args Kw : Type)
          (f : Args -> Kw -> Z -> result Y)
          (other_args : Args) (kwargs : Kw) (pts_l : list Z),
     make_extrap_log_func f other_args kwargs pts_l
     = tmap yexp
         (make_extrap_func (fun a kw pts => rmap ylog (f a kw pts))
            other_args kwargs pts_l))
  /\ (forall (Args Kw : Type) (g : Args -> Kw -> Z -> result R)
             (other_args : Args) (kwargs : Kw) (pts_l : list Z),
        make_extrap_log_func (fun a kw pts => rmap exp (g a kw pts))
          other_args kwargs pts_l
        = tmap exp (make_extrap_func g other_args kwargs pts_l))
  /\ (forall (idx Args Kw : Type)
             (g : Args -> Kw -> Z -> result (array idx))
             (other_args : Args) (kwargs : Kw) (pts_l : list Z),
        make_extrap_log_func
          (fun a kw pts => rmap (fun y e => exp (y e)) (g a kw pts))
          other_args kwargs pts_l
        = tmap (fun y e => exp (y e))
            (make_extrap_func g other_args kwargs pts_l)).
Proof.
  split; [reflexivity|]. split.
  - intros Args Kw g other_args kwargs pts_l.
    exact (extrap_log_func_of_exp (Y := R) g other_args kwargs pts_l ln_exp).
  - intros idx Args Kw g other_args kwargs pts_l.
    refine (extrap_log_func_of_exp (Y := array idx) g other_args kwargs
              pts_l _).
    intros y. apply functional_extensionality. intros e. apply ln_exp.
Qed.

(** ** Projection coefficient cache *)

Section CacheFacts.
Context {F : Type} `{FloatOps F}.

Lemma cached_projection_hit (proj_to proj_from hits : Z) (m : memory F)
    (a : nat) :
  _projection_cache m !! (proj_to, proj_from, hits) = Some a ->
  _cached_projection proj_to proj_from hits m = (a, m).
Proof. intros Hhit. unfold _cached_projection. now rewrite Hhit. Qed.

Lemma cached_projection_miss (proj_to proj_from hits : Z) (m : memory F) :
  _projection_cache m !! (proj_to, proj_from, hits) = None ->
  exists v calls,
    _cached_projection proj_to proj_from hits m
    = (length (heap m),
       Memory (heap m ++ [v])
         (<[(proj_to, proj_from, hits) := length (heap m)]>
            (_projection_cache m))
         calls)
    /\ v = (if existsb isnan (direct_contrib proj_to proj_from hits)
            then log_contrib proj_to proj_from hits
            else direct_contrib proj_to proj_from hits).
Proof.
  intros Hmiss. unfold _cached_projection. rewrite Hmiss.
  destruct (existsb isnan (direct_contrib proj_to proj_from hits));
    eexists; eexists; split; reflexivity.
Qed.

Lemma direct_contrib_lookup (proj_to proj_from hits j : Z) :
  (0 <= j <= proj_to)%Z ->
  direct_contrib proj_to proj_from hits !! Z.to_nat j
  = Some (fdiv (fmul (comb proj_to j) (comb (proj_from - proj_to) (hits - j)))
            (comb proj_from hits)).
Proof.
  intros Hj. unfold direct_contrib, arange.
  rewrite list_lookup_fmap, lookup_zip_with, !list_lookup_fmap.
  rewrite lookup_seqZ_lt by lia. cbn.
  now replace (Z.of_nat (Z.to_nat j)) with j by lia.
Qed.

Lemma direct_contrib_length (proj_to proj_from hits : Z) :
  length (direct_contrib proj_to proj_from hits) = Z.to_nat (proj_to + 1).
Proof.
  unfold direct_contrib, arange.
  rewrite length_fmap, length_zip_with, !length_fmap, length_seqZ. lia.
Qed.

Lemma log_contrib_lookup (proj_to proj_from hits j : Z) :
  (0 <= j <= proj_to)%Z ->
  log_contrib proj_to proj_from hits !! Z.to_nat j
  = Some (fexp (fsub (fadd (log_choose proj_to j)
                        (log_choose (proj_from - proj_to) (hits - j)))
                  (log_choose proj_from hits))).
Proof.
  intros Hj. unfold log_contrib, arange.
  rewrite !list_lookup_fmap, lookup_zip_with, !list_lookup_fmap.
  rewrite lookup_seqZ_lt by lia. cbn.
  now replace (Z.of_nat (Z.to_nat j)) with j by lia.
Qed.

Lemma log_contrib_length (proj_to proj_from hits : Z) :
  length (log_contrib proj_to proj_from hits) = Z.to_nat (proj_to + 1).
Proof.
  unfold log_contrib, arange.
  rewrite !length_fmap, length_zip_with, !length_fmap, length_seqZ. lia.
Qed.

End CacheFacts.

(** C4. On a miss, when some entry of the directly computed vector is
    not-a-number, the call still returns, and the vector it returns and
    stores has at every index [j] of [0 .. proj_to] the log-space value
    [exp(logC(proj_to,j) + logC(proj_from-proj_to,hits-j)
    - logC(proj_from,hits))]. *)
Theorem cached_projection_nan_fallback {F : Type} `{FloatOps F}
    (proj_to proj_from hits : Z) (m : memory F) :
  _projection_cache m !! (proj_to, proj_from, hits) = None ->
  (exists c, In c (direct_contrib proj_to proj_from hits) /\ isnan c = true) ->
  exists (a : nat) (v : list F) (m' : memory F),
    _cached_projection proj_to proj_from hits m = (a, m')
    /\ heap m' !! a = Some v
    /\ _projection_cache m' !! (proj_to, proj_from, hits) = Some a
    /\ length v = Z.to_nat (proj_to + 1)
    /\ forall j : Z, (0 <= j <= proj_to)%Z ->
         v !! Z.to_nat j
         = Some (fexp (fsub (fadd (log_choose proj_to j)
                               (log_choose (proj_from - proj_to) (hits - j)))
                         (log_choose proj_from hits))).
Proof.
  intros Hmiss Hnan. apply existsb_exists in Hnan.
  destruct (cached_projection_miss proj_to proj_from hits m Hmiss)
    as (v & calls & Hcall & Hv).
  rewrite Hnan in Hv. subst v.
  eexists _, _, _. split; [exact Hcall|]. cbn [heap _projection_cache].
  split; [|split; [|split]].
  - now rewrite lookup_app_r, Nat.sub_diag by lia.
  - apply lookup_insert_eq.
  - apply log_contrib_length.
  - apply log_contrib_lookup.
Qed.

Lemma exact_direct_contrib_nan :
  direct_contrib 2 4 5 = [None; None; None].
Proof.
  unfold direct_contrib, arange.
  change (seqZ 0 (2 + 1)) with [0; 1; 2]%Z. cbn.
  destruct (Req_dec_T 0 0) as [_|Hne]; [reflexivity|].
  now destruct Hne.
Qed.

Lemma cached_projection_nan_fallback_witness :
  exists (a : nat) (v : list (option R)) (m' : memory (option R)),
    _cached_projection 2 4 5 empty_memory = (a, m')
    /\ heap m' !! a = Some v
    /\ _projection_cache m' !! (2, 4, 5)%Z = Some a
    /\ length v = 3%nat
    /\ forall j : Z, (0 <= j <= 2)%Z ->
         v !! Z.to_nat j
         = Some (fexp (fsub (fadd (log_choose 2 j)
                               (log_choose (4 - 2) (5 - j)))
                         (log_choose 4 5))).
Proof.
  apply (cached_projection_nan_fallback 2 4 5 empty_memory).
  - reflexivity.
  - exists None. rewrite exact_direct_contrib_nan. split; [now left|].
    reflexivity.
Defined.

(** C8. A call stores its result under the key before returning, and a
    second call with the same arguments returns the very array the dict
    holds under that key: the same reference, with no library call, no
    allocation and no other change of the memory, whatever happened to the
    arrays in between. *)
Theorem cached_projection_memoized {F : Type} `{FloatOps F}
    (proj_to proj_from hits : Z) (m : memory F) :
  cache_wf m ->
  exists (a : nat) (v : list F) (m1 : memory F),
    _cached_projection proj_to proj_from hits m = (a, m1)
    /\ cache_wf m1
    /\ _projection_cache m1 !! (proj_to, proj_from, hits) = Some a
    /\ heap m1 !! a = Some v
    /\ _cached_projection proj_to proj_from hits m1 = (a, m1)
    /\ forall m2 : memory F,
         _projection_cache m2 = _projection_cache m1 ->
         _cached_projection proj_to proj_from hits m2 = (a, m2).
Proof.
  intros Hwf.
  destruct (_projection_cache m !! (proj_to, proj_from, hits))
    as [a|] eqn:Hlook.
  - destruct (lookup_lt_is_Some_2 (heap m) a (Hwf _ _ Hlook)) as [v Hv].
    exists a, v, m.
    pose proof (cached_projection_hit proj_to proj_from hits m a Hlook).
    repeat split; try assumption.
    intros m2 Hm2. apply cached_projection_hit. now rewrite Hm2.
  - destruct (cached_projection_miss proj_to proj_from hits m Hlook)
      as (v & calls & Hcall & _).
    eexists _, v, _. split; [exact Hcall|].
    assert (Hstored :
      <[(proj_to, proj_from, hits) := length (heap m)]>
        (_projection_cache m) !! (proj_to, proj_from, hits)
      = Some (length (heap m))) by apply lookup_insert_eq.
    split; [|split; [exact Hstored|split; [|split]]].
    + intros key a. cbn [heap _projection_cache].
      rewrite length_app. cbn [length].
      destruct (decide ((proj_to, proj_from, hits) = key)) as [<-|Hne].
      * rewrite lookup_insert_eq. intros [= <-]. lia.
      * rewrite lookup_insert_ne by exact Hne.
        intros Ha. apply Hwf in Ha. lia.
    + cbn [heap]. now rewrite lookup_app_r, Nat.sub_diag by lia.
    + now apply cached_projection_hit.
    + intros m2 Hm2. apply cached_projection_hit. now rewrite Hm2.
Qed.

Lemma empty_memory_wf {F : Type} : cache_wf (@empty_memory F).
Proof. intros key a. cbn. rewrite lookup_empty. discriminate. Qed.

Lemma cached_projection_memoized_witness :
  exists (a : nat) (v : list (option R)) (m1 : memory (option R)),
    _cached_projection 2 4 2 empty_memory = (a, m1)
    /\ cache_wf m1
    /\ _projection_cache m1 !! (2, 4, 2)%Z = Some a
    /\ heap m1 !! a = Some v
    /\ _cached_projection 2 4 2 m1 = (a, m1)
    /\ forall m2 : memory (option R),
         _projection_cache m2 = _projection_cache m1 ->
         _cached_projection 2 4 2 m2 = (a, m2).
Proof.
  apply (cached_projection_memoized 2 4 2 empty_memory), empty_memory_wf.
Defined.

(** *** Exact arithmetic *)

Lemma binomial_above (n k : nat) : (n < k)%nat -> binomial n k = 0%nat.
Proof.
  revert k. induction n as [|n IH]; intros [|k] Hk; try lia; cbn.
  - reflexivity.
  - rewrite !IH by lia. reflexivity.
Qed.

Lemma binomial_fact (n k : nat) :
  (k <= n)%nat -> (binomial n k * (fact k * fact (n - k)) = fact n)%nat.
Proof.
  revert k. induction n as [|n IH]; intros k Hk.
  - replace k with 0%nat by lia. reflexivity.
  - destruct k as [|k]; [cbn [binomial]; rewrite Nat.sub_0_r; cbn; lia|].
    cbn [binomial]. replace (S n - S k)%nat with (n - k)%nat by lia.
    destruct (decide (k = n)) as [->|Hne].
    + rewrite (binomial_above n (S n)) by lia.
      pose proof (IH n (le_n n)) as IHn.
      rewrite Nat.sub_diag in *. cbn [fact] in *. nia.
    + pose proof (IH k ltac:(lia)) as IH1.
      pose proof (IH (S k) ltac:(lia)) as IH2.
      assert (Hn : S n = (S k + S (n - S k))%nat) by lia.
      replace (n - k)%nat with (S (n - S k)) in * by lia.
      change (fact (S n)) with (S n * fact n)%nat.
      change (fact (S k)) with (S k * fact k)%nat in *.
      change (fact (S (n - S k))) with (S (n - S k) * fact (n - S k))%nat
        in *.
      clear IH.
      set (a := binomial n k) in *. set (b := binomial n (S k)) in *.
      set (N := fact n) in *. set (x := fact k) in *.
      set (d := (n - S k)%nat) in *. set (y := fact d) in *.
      clearbody a b N x y d.
      transitivity (S k * (a * (x * (S d * y)))
                    + S d * (b * (S k * x * y)))%nat; [ring|].
      rewrite IH1, IH2, Hn. ring.
Qed.

Lemma comb_exact_choose (N k : Z) :
  (0 <= N)%Z -> comb_exact N k = choose N k.
Proof.
  intros HN. unfold comb_exact, choose.
  destruct (Z.ltb_spec N 0); [lia|]. destruct (Z.leb_spec 0 N); [|lia].
  destruct (Z.ltb_spec k 0), (Z.leb_spec 0 k); try lia;
    rewrite ?andb_false_r, ?andb_true_r; cbn [orb]; [reflexivity|].
  destruct (Z.leb_spec k N); cbn [andb].
  - rewrite INR_IZR_INZ.
    rewrite <- (binomial_fact (Z.to_nat N) (Z.to_nat k)) by lia.
    replace (Z.to_nat (N - k)) with (Z.to_nat N - Z.to_nat k)%nat by lia.
    rewrite !Nat2Z.inj_mul, !mult_IZR.
    pose proof (lt_O_fact (Z.to_nat k)) as Hk.
    pose proof (lt_O_fact (Z.to_nat N - Z.to_nat k)) as Hnk.
    apply Nat2Z.inj_lt, IZR_lt in Hk, Hnk.
    change (Z.of_nat 0) with 0%Z in Hk, Hnk.
    field. split; lra.
  - rewrite binomial_above by lia. reflexivity.
Qed.

Lemma choose_pos (n k : Z) : (0 <= k <= n)%Z -> 0 < choose n k.
Proof.
  intros Hk. unfold choose.
  destruct (Z.ltb_spec n 0); [lia|]. destruct (Z.ltb_spec k 0); [lia|].
  cbn [orb]. apply lt_0_INR.
  pose proof (binomial_fact (Z.to_nat n) (Z.to_nat k) ltac:(lia)) as Hb.
  pose proof (lt_O_fact (Z.to_nat n)).
  destruct (binomial (Z.to_nat n) (Z.to_nat k)); lia.
Qed.

Lemma existsb_isnan_values (l : list R) :
  existsb isnan (Some <$> l) = false.
Proof. induction l as [|x l IH]; [reflexivity|exact IH]. Qed.

(** Inside the domain of the keys the direct form divides by a positive
    binomial, so that every entry has a value. *)
Lemma exact_direct_contrib (proj_to proj_from hits : Z) :
  (0 <= proj_to <= proj_from)%Z -> (0 <= hits <= proj_from)%Z ->
  direct_contrib proj_to proj_from hits
  = Some <$> ((fun j => choose proj_to j
                        * choose (proj_from - proj_to) (hits - j)
                        / choose proj_from hits)
                <$> seqZ 0 (proj_to + 1)).
Proof.
  intros Hto Hhits. unfold direct_contrib, arange.
  rewrite zip_with_fmap_l, zip_with_fmap_r, zip_with_fmap_r, zip_with_diag.
  rewrite <- !list_fmap_compose. apply list_fmap_ext. intros i j _.
  unfold compose. cbn [comb fmul fdiv exact_ops].
  rewrite !comb_exact_choose by lia.
  pose proof (choose_pos proj_from hits Hhits) as Hpos.
  destruct (Req_dec_T (choose proj_from hits) 0) as [Hz|_]; [lra|].
  reflexivity.
Qed.



(** ** One-sided first derivatives *)

Lemma peval_deriv_correct (p : list R) (x : R) :
  derivable_pt_lim (peval p) x (peval_deriv p x).
Proof.
  induction p as [|c q IH].
  - apply derivable_pt_lim_const.
  - cbn [peval_deriv].
    replace (peval q x + x * peval_deriv q x)
      with (0 + (1 * peval q x + x * peval_deriv q x)) by ring.
    apply (derivable_pt_lim_plus (fun _ => c) (fun t => t * peval q t)).
    + apply derivable_pt_lim_const.
    + apply (derivable_pt_lim_mult (fun t => t) (peval q));
        [apply derivable_pt_lim_id | exact IH].
Qed.

Lemma np_index_suffix {A : Type} (pre suf : list A) (k : Z) (v : A) :
  (- Z.of_nat (length suf) <= k < 0)%Z ->
  suf !! Z.to_nat (k + Z.of_nat (length suf)) = Some v ->
  np_index (pre ++ suf) k = Ok v.
Proof.
  intros Hk Hv. apply np_index_neg_ok; rewrite ?length_app; try lia.
  replace (Z.to_nat (k + Z.of_nat (length pre + length suf)))
    with (length pre + Z.to_nat (k + Z.of_nat (length suf)))%nat by lia.
  rewrite lookup_app_r by lia.
  now replace (length pre + Z.to_nat (k + Z.of_nat (length suf))
               - length pre)%nat
    with (Z.to_nat (k + Z.of_nat (length suf))) by lia.
Qed.

Lemma end_point_first_derivs_ok (xx : list R) :
  (5 <= length xx)%nat ->
  exists x0 x1 x2 x3 x4 rest pre xm5 xm4 xm3 xm2 xm1,
    xx = [x0; x1; x2; x3; x4] ++ rest
    /\ xx = pre ++ [xm5; xm4; xm3; xm2; xm1]
    /\ end_point_first_derivs xx
       = Ok [start_coefficients x0 x1 x2 x3 x4;
             end_coefficients xm1 xm2 xm3 xm4 xm5].
Proof.
  intros Hlen.
  assert (Hrev : (5 <= length (rev xx))%nat) by now rewrite length_rev.
  destruct (rev xx) as [|xm1 [|xm2 [|xm3 [|xm4 [|xm5 r]]]]] eqn:Hr;
    cbn in Hrev; try lia.
  apply (f_equal (@rev R)) in Hr. rewrite rev_involutive in Hr.
  cbn [rev] in Hr. rewrite <- !app_assoc in Hr. cbn [app] in Hr.
  destruct xx as [|x0 [|x1 [|x2 [|x3 [|x4 rest]]]]] eqn:Hxx;
    cbn in Hlen; try lia.
  exists x0, x1, x2, x3, x4, rest, (rev r), xm5, xm4, xm3, xm2, xm1.
  split; [reflexivity|]. split; [exact Hr|].
  unfold end_point_first_derivs.
  rewrite (np_index_ok _ 0 x0), (np_index_ok _ 1 x1), (np_index_ok _ 2 x2),
    (np_index_ok _ 3 x3), (np_index_ok _ 4 x4) by (lia || reflexivity).
  cbn [rbind]. rewrite Hr.
  rewrite (np_index_suffix _ _ (-1) xm1), (np_index_suffix _ _ (-2) xm2),
    (np_index_suffix _ _ (-3) xm3), (np_index_suffix _ _ (-4) xm4),
    (np_index_suffix _ _ (-5) xm5) by (cbn; lia || reflexivity).
  reflexivity.
Qed.

Lemma start_coefficients_exact (x0 x1 x2 x3 x4 : R) (p : list R) :
  NoDup [x0; x1; x2; x3; x4] -> (length p <= 5)%nat ->
  dot (start_coefficients x0 x1 x2 x3 x4) (peval p <$> [x0; x1; x2; x3; x4])
  = peval_deriv p x0.
Proof.
  intros Hnd Hp. nodup_inv.
  destruct p as [|c0 [|c1 [|c2 [|c3 [|c4 [|]]]]]]; cbn in Hp; try lia;
    cbn; field; distinct.
Qed.

Lemma end_coefficients_exact (xm1 xm2 xm3 xm4 xm5 : R) (p : list R) :
  NoDup [xm5; xm4; xm3; xm2; xm1] -> (length p <= 5)%nat ->
  dot (rev (end_coefficients xm1 xm2 xm3 xm4 xm5))
    (peval p <$> [xm5; xm4; xm3; xm2; xm1])
  = peval_deriv p xm1.
Proof.
  intros Hnd Hp. nodup_inv.
  destruct p as [|c0 [|c1 [|c2 [|c3 [|c4 [|]]]]]]; cbn in Hp; try lia;
    cbn; field; distinct.
Qed.

(** X1. For a grid of at least five points whose first five are pairwise
    distinct, the first row of [end_point_first_derivs], dotted with the
    values of a polynomial of degree at most 4 at those five points, is
    the derivative of the polynomial at the first point. *)
Theorem end_point_first_derivs_start (xx p : list R) :
  (5 <= length xx)%nat -> NoDup (take 5 xx) -> (length p <= 5)%nat ->
  exists (d0 d1 : list R) (x0 : R),
    end_point_first_derivs xx = Ok [d0; d1]
    /\ xx !! 0%nat = Some x0
    /\ derivable_pt_lim (peval p) x0 (dot d0 (peval p <$> take 5 xx)).
Proof.
  intros Hlen Hnd Hp.
  destruct (end_point_first_derivs_ok xx Hlen)
    as (x0 & x1 & x2 & x3 & x4 & rest & pre & xm5 & xm4 & xm3 & xm2 & xm1
        & Hstart & _ & Hcall).
  eexists _, _, x0. split; [exact Hcall|].
  rewrite Hstart in Hnd |- *. cbn [take app] in Hnd |- *.
  rewrite take_0 in Hnd |- *.
  split; [reflexivity|].
  rewrite start_coefficients_exact by assumption.
  apply peval_deriv_correct.
Qed.

Lemma end_point_first_derivs_start_witness :
  exists (d0 d1 : list R) (x0 : R),
    end_point_first_derivs [0; 1; 2; 3; 4; 5] = Ok [d0; d1]
    /\ [0; 1; 2; 3; 4; 5] !! 0%nat = Some x0
    /\ derivable_pt_lim (peval [0; 0; 1]) x0
         (dot d0 (peval [0; 0; 1] <$> take 5 [0; 1; 2; 3; 4; 5])).
Proof.
  apply end_point_first_derivs_start; [cbn; lia | | cbn; lia].
  cbn [take]. repeat (apply NoDup_cons; split;
    [rewrite ?not_elem_of_cons; repeat split; try lra; apply not_elem_of_nil|]).
  apply NoDup_nil_2.
Defined.

(** X2. For a grid of at least five points whose last five are pairwise
    distinct, the second row of [end_point_first_derivs], reversed and
    dotted with the values of a polynomial of degree at most 4 at the last
    five points, is the derivative of the polynomial at the last point. *)
Theorem end_point_first_derivs_end (xx p : list R) :
  (5 <= length xx)%nat -> NoDup (drop (length xx - 5) xx) ->
  (length p <= 5)%nat ->
  exists (d0 d1 : list R) (xl : R),
    end_point_first_derivs xx = Ok [d0; d1]
    /\ last xx = Some xl
    /\ derivable_pt_lim (peval p) xl
         (dot (rev d1) (peval p <$> drop (length xx - 5) xx)).
Proof.
  intros Hlen Hnd Hp.
  destruct (end_point_first_derivs_ok xx Hlen)
    as (x0 & x1 & x2 & x3 & x4 & rest & pre & xm5 & xm4 & xm3 & xm2 & xm1
        & _ & Hend & Hcall).
  eexists _, _, xm1. split; [exact Hcall|].
  assert (Hdrop : drop (length xx - 5) xx = [xm5; xm4; xm3; xm2; xm1]).
  { rewrite Hend, length_app. cbn [length].
    replace (length pre + 5 - 5)%nat with (length pre) by lia.
    apply drop_app_length. }
  rewrite Hdrop in Hnd |- *. split.
  - rewrite Hend.
    change [xm5; xm4; xm3; xm2; xm1] with ([xm5; xm4; xm3; xm2] ++ [xm1]).
    rewrite app_assoc. apply last_snoc.
  - rewrite end_coefficients_exact by assumption.
    apply peval_deriv_correct.
Qed.

Lemma end_point_first_derivs_end_witness :
  exists (d0 d1 : list R) (xl : R),
    end_point_first_derivs [0; 1; 2; 3; 4; 5] = Ok [d0; d1]
    /\ last [0; 1; 2; 3; 4; 5] = Some xl
    /\ derivable_pt_lim (peval [0; 0; 1]) xl
         (dot (rev d1) (peval [0; 0; 1] <$> drop 1 [0; 1; 2; 3; 4; 5])).
Proof.
  apply (end_point_first_derivs_end [0; 1; 2; 3; 4; 5]);
    [cbn; lia | | cbn; lia].
  cbn [length Nat.sub drop]. repeat (apply NoDup_cons; split;
    [rewrite ?not_elem_of_cons; repeat split; try lra; apply not_elem_of_nil|]).
  apply NoDup_nil_2.
Defined.

(** X3. [end_point_first_derivs] raises [IndexError] on a grid of fewer
    than five points, and on any longer grid it returns two rows of five
    coefficients. *)
Theorem end_point_first_derivs_domain (xx : list R) :
  ((length xx < 5)%nat -> end_point_first_derivs xx = Err IndexError)
  /\ ((5 <= length xx)%nat ->
      exists d0 d1 : list R,
        end_point_first_derivs xx = Ok [d0; d1]
        /\ length d0 = 5%nat /\ length d1 = 5%nat).
Proof.
  split.
  - intros Hlen.
    destruct xx as [|x0 [|x1 [|x2 [|x3 [|x4 rest]]]]]; cbn in Hlen; try lia;
      reflexivity.
  - intros Hlen.
    destruct (end_point_first_derivs_ok xx Hlen)
      as (x0 & x1 & x2 & x3 & x4 & rest & pre & xm5 & xm4 & xm3 & xm2 & xm1
          & _ & _ & Hcall).
    eexists _, _. split; [exact Hcall|]. split; reflexivity.
Qed.

Lemma end_point_first_derivs_domain_witness :
  end_point_first_derivs [0; 1; 2; 3] = Err IndexError
  /\ exists d0 d1 : list R,
       end_point_first_derivs [0; 1; 2; 3; 4] = Ok [d0; d1]
       /\ length d0 = 5%nat /\ length d1 = 5%nat.
Proof.
  split.
  - apply (end_point_first_derivs_domain [0; 1; 2; 3]). cbn. lia.
  - apply (end_point_first_derivs_domain [0; 1; 2; 3; 4]). cbn. lia.
Defined.

(** ** Array reversal *)

Lemma np_index_reverse {A : Type} (l : list A) (i : Z) :
  (0 <= i)%Z -> np_index (reverse l) i = np_index l (- (i + 1)).
Proof.
  intros Hi. destruct (decide (i < Z.of_nat (length l))%Z) as [Hlt|Hge].
  - destruct (lookup_lt_is_Some_2 l (length l - S (Z.to_nat i))) as [v Hv];
      [lia|].
    rewrite (np_index_ok (reverse l) i v), (np_index_neg_ok l (- (i + 1)) v);
      try lia; try reflexivity.
    + now replace (Z.to_nat (- (i + 1) + Z.of_nat (length l)))
        with (length l - S (Z.to_nat i))%nat by lia.
    + rewrite reverse_lookup by lia. exact Hv.
  - rewrite (np_index_neg_err l) by lia.
    replace i with (Z.of_nat (Z.to_nat i)) by lia.
    apply np_index_short. rewrite length_reverse. lia.
Qed.

Lemma np_index_fmap {A B : Type} (f : A -> B) (l : list A) (i : Z) :
  np_index (f <$> l) i = rmap f (np_index l i).
Proof.
  unfold np_index. rewrite length_fmap, list_lookup_fmap.
  destruct (_ && _); [|reflexivity].
  now destruct (l !! _).
Qed.


(** X5. For a two-dimensional array and indices [i, j >= 0], the reversed
    array at [[i, j]] is the array at [[-(i+1), -(j+1)]], failing with
    [IndexError] exactly when that one does. *)
Theorem reverse_array_index (arr : ndarray 2) (i j : Z) :
  (0 <= i)%Z -> (0 <= j)%Z ->
  rbind (np_index (reverse_array 2 arr) i) (fun row => np_index row j)
  = rbind (np_index arr (- (i + 1)))
      (fun row => np_index row (- (j + 1))).
Proof.
  intros Hi Hj. cbn [reverse_array ndarray] in *.
  rewrite np_index_reverse, np_index_fmap by exact Hi.
  destruct (np_index arr (- (i + 1))) as [row|e]; [|reflexivity].
  cbn [rmap rbind]. rewrite list_fmap_id. now apply np_index_reverse.
Qed.

Lemma reverse_array_index_witness :
  rbind (np_index (reverse_array 2 [[1; 2; 3]; [4; 5; 6]]) 0)
    (fun row => np_index row 1)
  = Ok 5.
Proof.
  etransitivity;
    [apply (reverse_array_index [[1; 2; 3]; [4; 5; 6]] 0 1); lia|].
  reflexivity.
Defined.

(** ** Trapezoidal rule *)

Lemma np_diff_length (xx : list R) :
  length (np_diff xx) = (length xx - 1)%nat.
Proof.
  unfold np_diff. rewrite length_zip_with, length_drop. lia.
Qed.

Lemma trapz_sum_pts (xx yy : list R) :
  length yy = length xx ->
  Rsum (zip_with (fun d s => d * s / 2) (np_diff xx)
          (zip_with Rplus (drop 1 yy) (removelast yy)))
  = trap_pts (zip xx yy).
Proof.
  revert yy. induction xx as [|x0 xx IH]; intros yy Hlen.
  - reflexivity.
  - destruct yy as [|y0 yy]; [discriminate|].
    destruct xx as [|x1 xx]; [reflexivity|].
    destruct yy as [|y1 yy]; [discriminate|].
    specialize (IH (y1 :: yy) ltac:(cbn in *; lia)).
    change (trap_pts (zip (x0 :: x1 :: xx) (y0 :: y1 :: yy)))
      with ((x1 - x0) * (y1 + y0) / 2
            + trap_pts (zip (x1 :: xx) (y1 :: yy))).
    rewrite <- IH. reflexivity.
Qed.

Lemma trapz_xx_ok (xx yy : list R) :
  length yy = length xx -> xx <> [] ->
  trapz yy (Some xx) None = Ok (trap_pts (zip xx yy)).
Proof.
  intros Hlen Hne. unfold trapz. cbn [rbind].
  rewrite np_diff_length.
  destruct (decide (length yy = (length xx - 1 + 1)%nat)) as [_|Hbad].
  - now rewrite trapz_sum_pts.
  - destruct xx; [contradiction|]. cbn in *. lia.
Qed.

(** X6. [trapz] raises [ValueError] unless exactly one of [xx] and [dx]
    is given.  With [xx] it returns a value exactly when [yy] has as many
    entries as [xx], or one entry for an empty [xx]; otherwise it raises
    the length [ValueError], which reports [len(xx)] as at least 1. *)
Theorem trapz_domain (yy xx : list R) :
  trapz yy None None = Err (ValueError trapz_args_msg)
  /\ (forall dx, trapz yy (Some xx) (Some dx) = Err (ValueError trapz_args_msg))
  /\ (length yy = Nat.max 1 (length xx) ->
      exists v, trapz yy (Some xx) None = Ok v)
  /\ (length yy <> Nat.max 1 (length xx) ->
      trapz yy (Some xx) None
      = Err (ValueError
               (trapz_length_msg (Nat.max 1 (length xx)) (length yy)))).
Proof.
  split; [reflexivity|]. split; [reflexivity|].
  unfold trapz. cbn [rbind]. rewrite np_diff_length.
  replace (length xx - 1 + 1)%nat with (Nat.max 1 (length xx)) by lia.
  split; intros Hlen; destruct (decide _) as [|]; try contradiction.
  - now eexists.
  - reflexivity.
Qed.

Lemma trapz_domain_witness :
  (exists v, trapz [3; 4] (Some [0; 1]) None = Ok v)
  /\ (exists v, trapz [3] (Some []) None = Ok v)
  /\ trapz [] (Some []) None
     = Err (ValueError (trapz_length_msg 1 0)).
Proof.
  split; [|split].
  - apply (proj1 (proj2 (proj2 (trapz_domain [3; 4] [0; 1])))). reflexivity.
  - apply (proj1 (proj2 (proj2 (trapz_domain [3] [])))). reflexivity.
  - apply (proj2 (proj2 (proj2 (trapz_domain [] [])))). cbn. lia.
Defined.

Lemma trap_pts_affine (a b x0 : R) (xx : list R) (xl : R) :
  last (x0 :: xx) = Some xl ->
  trap_pts (zip (x0 :: xx) ((fun x => a * x + b) <$> x0 :: xx))
  = a / 2 * (xl ^ 2 - x0 ^ 2) + b * (xl - x0).
Proof.
  revert x0. induction xx as [|x1 xx IH]; intros x0 Hlast.
  - injection Hlast as <-. cbn. field.
  - rewrite last_cons_cons in Hlast. specialize (IH x1 Hlast).
    cbn [fmap list_fmap zip zip_with trap_pts] in *.
    fold (zip xx ((fun x => a * x + b) <$> xx)) in *.
    change (list_fmap R R (fun x => a * x + b) xx)
      with ((fun x => a * x + b) <$> xx) in *.
    rewrite IH. field.
Qed.

(** X7. On the values of an affine function [a x + b] over any non-empty
    grid, increasing or not, [trapz] returns its exact integral from the
    first to the last grid point. *)
Theorem trapz_affine_exact (a b : R) (xx : list R) (x0 xl : R) :
  xx !! 0%nat = Some x0 -> last xx = Some xl ->
  trapz ((fun x => a * x + b) <$> xx) (Some xx) None
  = Ok (a / 2 * (xl ^ 2 - x0 ^ 2) + b * (xl - x0)).
Proof.
  intros Hx0 Hxl. destruct xx as [|x xx]; [discriminate|].
  injection Hx0 as ->.
  rewrite trapz_xx_ok by (rewrite ?length_fmap; congruence).
  f_equal. now apply trap_pts_affine.
Qed.

Lemma trapz_affine_exact_witness :
  trapz ((fun x => 2 * x + 1) <$> [0; 1; 3]) (Some [0; 1; 3]) None
  = Ok (2 / 2 * (3 ^ 2 - 0 ^ 2) + 1 * (3 - 0)).
Proof. apply trapz_affine_exact; reflexivity. Defined.

Lemma trapz_sum_cons (d y0 y1 : R) (dx yy : list R) :
  trapz_sum (d :: dx) (y0 :: y1 :: yy)
  = d * (y1 + y0) / 2 + trapz_sum dx (y1 :: yy).
Proof. reflexivity. Qed.

Lemma trapz_sum_linear (alpha beta : R) (dx y1 y2 : list R) :
  length y1 = (length dx + 1)%nat -> length y2 = (length dx + 1)%nat ->
  trapz_sum dx (zip_with (fun u v => alpha * u + beta * v) y1 y2)
  = alpha * trapz_sum dx y1 + beta * trapz_sum dx y2.
Proof.
  revert y1 y2. induction dx as [|d dx IH]; intros y1 y2 H1 H2.
  - unfold trapz_sum. cbn. ring.
  - destruct y1 as [|a0 [|a1 y1]]; cbn in H1; try lia.
    destruct y2 as [|b0 [|b1 y2]]; cbn in H2; try lia.
    specialize (IH (a1 :: y1) (b1 :: y2)
                  ltac:(cbn in *; lia) ltac:(cbn in *; lia)).
    cbn [zip_with] in *. rewrite !trapz_sum_cons, IH. field.
Qed.

Lemma trapz_dx_inv (yy : list R) (xx dx : option (list R)) (v : R) :
  trapz yy xx dx = Ok v ->
  exists d, (xx = None /\ dx = Some d \/ dx = None /\ exists x, xx = Some x /\ d = np_diff x)
            /\ length yy = (length d + 1)%nat /\ v = trapz_sum d yy.
Proof.
  unfold trapz. intros Hv.
  destruct xx as [x|], dx as [d|]; try discriminate; cbn [rbind] in Hv;
    destruct (decide _) as [Hlen|]; try discriminate;
    injection Hv as <-.
  - exists (np_diff x). split; [right; eauto|]. now split.
  - exists d. split; [left; eauto|]. now split.
Qed.

(** X8. [trapz] is linear in the integrand: where it returns [v1] for
    [y1] and [v2] for [y2] on the same [xx] or [dx], it returns
    [alpha v1 + beta v2] for the elementwise [alpha y1 + beta y2]. *)
Theorem trapz_linear (alpha beta : R) (y1 y2 : list R)
    (xx dx : option (list R)) (v1 v2 : R) :
  trapz y1 xx dx = Ok v1 -> trapz y2 xx dx = Ok v2 ->
  trapz (zip_with (fun u v => alpha * u + beta * v) y1 y2) xx dx
  = Ok (alpha * v1 + beta * v2).
Proof.
  intros H1 H2.
  apply trapz_dx_inv in H1 as (d1 & Hd1 & Hl1 & ->).
  apply trapz_dx_inv in H2 as (d2 & Hd2 & Hl2 & ->).
  assert (d2 = d1) as ->.
  { destruct Hd1 as [[-> Hd1]|[-> (x1 & -> & ->)]],
      Hd2 as [[? Hd2]|[? (x2 & ? & ->)]]; congruence. }
  assert (Hcall : forall yy, length yy = (length d1 + 1)%nat ->
            trapz yy xx dx = Ok (trapz_sum d1 yy)).
  { intros yy Hyy. unfold trapz.
    destruct Hd1 as [[-> ->]|[-> (x1 & -> & ->)]]; cbn [rbind];
      destruct (decide _); try contradiction; reflexivity. }
  rewrite Hcall by (rewrite length_zip_with; lia).
  now rewrite trapz_sum_linear.
Qed.

Lemma trapz_linear_witness :
  trapz (zip_with (fun u v => 2 * u + 3 * v) [1; 2; 4] [0; 1; 0])
    (Some [0; 1; 3]) None
  = Ok (2 * trap_pts (zip [0; 1; 3] [1; 2; 4])
        + 3 * trap_pts (zip [0; 1; 3] [0; 1; 0])).
Proof.
  apply trapz_linear; apply trapz_xx_ok; (reflexivity || discriminate).
Defined.

Lemma trap_pts_app (pts1 pts2 : list (R * R)) (p : R * R) :
  trap_pts (pts1 ++ p :: pts2) = trap_pts (pts1 ++ [p]) + trap_pts (p :: pts2).
Proof.
  induction pts1 as [|[x0 y0] pts1 IH].
  - destruct p as [x y]. cbn [app trap_pts]. ring.
  - destruct pts1 as [|[x1 y1] pts1].
    + destruct p as [x y]. cbn [app trap_pts] in *. ring.
    + cbn [app] in *.
      change (trap_pts ((x0, y0) :: (x1, y1) :: ?l))
        with ((x1 - x0) * (y1 + y0) / 2 + trap_pts ((x1, y1) :: l)).
      rewrite IH. ring.
Qed.

(** X9. The rule is additive over adjacent pieces of the grid: on a grid
    split at one of its points, [trapz] of the whole is the sum of
    [trapz] of the part up to that point and of the part from it. *)
Theorem trapz_split (xs1 ys1 xs2 ys2 : list R) (xm ym : R) :
  length ys1 = length xs1 -> length ys2 = length xs2 ->
  exists v1 v2 : R,
    trapz (ys1 ++ [ym]) (Some (xs1 ++ [xm])) None = Ok v1
    /\ trapz (ym :: ys2) (Some (xm :: xs2)) None = Ok v2
    /\ trapz (ys1 ++ ym :: ys2) (Some (xs1 ++ xm :: xs2)) None
       = Ok (v1 + v2).
Proof.
  intros H1 H2.
  exists (trap_pts (zip (xs1 ++ [xm]) (ys1 ++ [ym]))),
    (trap_pts (zip (xm :: xs2) (ym :: ys2))).
  split; [|split].
  - apply trapz_xx_ok; [rewrite !length_app; cbn; lia|].
    now destruct xs1.
  - apply trapz_xx_ok; [cbn; lia|discriminate].
  - rewrite trapz_xx_ok;
      [|rewrite !length_app; cbn; lia|now destruct xs1].
    f_equal.
    rewrite (zip_with_app pair xs1 (xm :: xs2) ys1 (ym :: ys2)) by congruence.
    rewrite (zip_with_app pair xs1 [xm] ys1 [ym]) by congruence.
    exact (trap_pts_app (zip xs1 ys1) (zip xs2 ys2) (xm, ym)).
Qed.

Lemma trapz_split_witness :
  exists v1 v2 : R,
    trapz ([1; 2] ++ [4]) (Some ([0; 1] ++ [3])) None = Ok v1
    /\ trapz [4; 5] (Some [3; 7]) None = Ok v2
    /\ trapz ([1; 2] ++ [4; 5]) (Some ([0; 1] ++ [3; 7])) None
       = Ok (v1 + v2).
Proof. apply (trapz_split [0; 1] [1; 2] [7] [5] 3 4); reflexivity. Defined.

(** ** More on the grid *)

(** X10. For [num_pts >= 0], [default_grid] returns a grid, of [num_pts]
    points, exactly when [num_pts >= 20]; below that it raises
    [IndexError]. *)
Theorem default_grid_domain (num_pts : Z) :
  (0 <= num_pts)%Z ->
  ((num_pts < 20)%Z -> default_grid num_pts = Err IndexError)
  /\ ((20 <= num_pts)%Z ->
      exists grid : list R,
        default_grid num_pts = Ok grid /\ length grid = Z.to_nat num_pts).
Proof.
  intros Hpos. split; intros Hn.
  - apply default_grid_small. Z.div_mod_to_equations. lia.
  - assert (Hs : (2 <= small_pts num_pts)%Z)
      by (unfold small_pts; Z.div_mod_to_equations; lia).
    exists (grid_closed_form num_pts).
    split; [now apply default_grid_eq|now apply grid_closed_form_length].
Qed.

Lemma default_grid_domain_witness :
  default_grid 19 = Err IndexError
  /\ exists grid : list R, default_grid 20 = Ok grid /\ length grid = 20%nat.
Proof.
  split.
  - apply (proj1 (default_grid_domain 19 ltac:(lia))). lia.
  - apply (proj2 (default_grid_domain 20 ltac:(lia))). lia.
Defined.

Lemma grid_closed_form_boundary (n : Z) (i : Z) :
  (2 <= small_pts n)%Z -> (0 <= i <= small_pts n - 1)%Z ->
  grid_closed_form n !! Z.to_nat i
  = Some (IZR i * (5 / 100 / IZR (small_pts n - 1))).
Proof.
  intros Hs Hi. pose proof (large_pts_bounds n Hs) as HL.
  assert (HS1 : IZR (small_pts n - 1) <> 0) by (apply not_0_IZR; lia).
  unfold grid_closed_form.
  destruct (decide (i < small_pts n - 1)%Z) as [Hlt|Hge].
  - rewrite lookup_app_l by (rewrite length_fmap, length_seqZ; lia).
    rewrite lookup_fmap_seqZ by lia. f_equal.
    replace (Z.of_nat (Z.to_nat i)) with i by lia. field. exact HS1.
  - assert (i = small_pts n - 1)%Z as -> by lia.
    rewrite lookup_app_r by (rewrite length_fmap, length_seqZ; lia).
    rewrite length_fmap, length_seqZ, Nat.sub_diag.
    rewrite lookup_fmap_seqZ by lia. f_equal.
    change (Z.of_nat 0) with 0%Z.
    replace (0 / IZR (large_pts n - 1)) with 0
      by (unfold Rdiv; now rewrite Rmult_0_l).
    rewrite grid_cubic_0. field. exact HS1.
Qed.

(** X11. With [s = floor(num_pts/10) >= 2], the first [s] points of the
    grid are evenly spaced from 0 to 0.05: point [i] is [i * 0.05/(s-1)]
    for [0 <= i <= s-1].  The second point, which [extrap_func] uses as
    position, is thus [0.05/(s-1)] and depends on [num_pts] only through
    [s]. *)
Theorem default_grid_boundary (num_pts i : Z) :
  (2 <= num_pts / 10)%Z -> (0 <= i <= num_pts / 10 - 1)%Z ->
  exists grid : list R,
    default_grid num_pts = Ok grid
    /\ grid !! Z.to_nat i = Some (IZR i * (5 / 100 / IZR (num_pts / 10 - 1)))
    /\ np_index grid 1 = Ok (first_spacing num_pts).
Proof.
  intros Hs Hi. fold (small_pts num_pts) in *.
  exists (grid_closed_form num_pts).
  split; [now apply default_grid_eq|].
  split; [now apply grid_closed_form_boundary|].
  apply np_index_ok; [lia|].
  rewrite (grid_closed_form_boundary num_pts 1) by (assumption || lia).
  f_equal. unfold first_spacing, small_pts. apply Rmult_1_l.
Qed.

Lemma default_grid_boundary_witness :
  exists grid : list R,
    default_grid 45 = Ok grid
    /\ grid !! Z.to_nat 3 = Some (3 * (5 / 100 / IZR (45 / 10 - 1)))
    /\ np_index grid 1 = Ok (first_spacing 45).
Proof.
  apply (default_grid_boundary 45 3);
    [cbv; discriminate | cbv; split; discriminate].
Defined.

(** X12. The points after the boundary segment lie on one cubic in the
    parameter [q = j/(large_pts - 1)], and the cubic meets the conditions
    of the source comment: it starts at the last boundary point 0.05,
    ends at 1, and at both ends its derivative, taken per step of [q], is
    the boundary spacing. *)
Theorem default_grid_interior_cubic (num_pts : Z) :
  (2 <= num_pts / 10)%Z ->
  exists (grid : list R) (a b c d : R),
    default_grid num_pts = Ok grid
    /\ (forall j : Z, (0 <= j < large_pts num_pts)%Z ->
          grid !! Z.to_nat (small_pts num_pts - 1 + j)
          = Some (peval [d; c; b; a] (IZR j / IZR (large_pts num_pts - 1))))
    /\ peval [d; c; b; a] 0 = 5 / 100
    /\ peval [d; c; b; a] 1 = 1
    /\ peval_deriv [d; c; b; a] 0 / IZR (large_pts num_pts - 1)
       = 5 / 100 / IZR (small_pts num_pts - 1)
    /\ peval_deriv [d; c; b; a] 1 / IZR (large_pts num_pts - 1)
       = 5 / 100 / IZR (small_pts num_pts - 1).
Proof.
  intros Hs. fold (small_pts num_pts) in Hs.
  pose proof (large_pts_bounds num_pts Hs) as HL.
  assert (HS1 : IZR (small_pts num_pts - 1) <> 0) by (apply not_0_IZR; lia).
  assert (HL1 : IZR (large_pts num_pts - 1) <> 0) by (apply not_0_IZR; lia).
  exists (grid_closed_form num_pts),
    (2 * grid_slope num_pts - 19 / 10), (3 * (19 / 20 - grid_slope num_pts)),
    (grid_slope num_pts), (1 / 20).
  split; [now apply default_grid_eq|].
  split; [|unfold grid_slope; cbn [peval peval_deriv fold_right];
           repeat split; field; auto].
  intros j Hj. unfold grid_closed_form.
  rewrite lookup_app_r by (rewrite length_fmap, length_seqZ; lia).
  rewrite length_fmap, length_seqZ.
  replace (Z.to_nat (small_pts num_pts - 1 + j)
           - Z.to_nat (small_pts num_pts - 1))%nat
    with (Z.to_nat j) by lia.
  rewrite lookup_fmap_seqZ by lia. f_equal.
  replace (Z.of_nat (Z.to_nat j)) with j by lia.
  unfold grid_cubic. cbn [peval fold_right]. field. exact HL1.
Qed.

Lemma default_grid_interior_cubic_witness :
  exists (grid : list R) (a b c d : R),
    default_grid 20 = Ok grid
    /\ (forall j : Z, (0 <= j < large_pts 20)%Z ->
          grid !! Z.to_nat (small_pts 20 - 1 + j)
          = Some (peval [d; c; b; a] (IZR j / IZR (large_pts 20 - 1))))
    /\ peval [d; c; b; a] 0 = 5 / 100
    /\ peval [d; c; b; a] 1 = 1
    /\ peval_deriv [d; c; b; a] 0 / IZR (large_pts 20 - 1)
       = 5 / 100 / IZR (small_pts 20 - 1)
    /\ peval_deriv [d; c; b; a] 1 / IZR (large_pts 20 - 1)
       = 5 / 100 / IZR (small_pts 20 - 1).
Proof. apply (default_grid_interior_cubic 20). cbv. discriminate. Defined.

(** ** More on the extrapolation wrapper *)

Lemma first_spacing_second (pts : Z) :
  (2 <= pts / 10)%Z ->
  exists grid : list R,
    default_grid pts = Ok grid /\ np_index grid 1 = Ok (first_spacing pts).
Proof.
  intros Hs. fold (small_pts pts) in Hs. exists (grid_closed_form pts).
  split; [now apply default_grid_eq|].
  apply np_index_ok; [lia|].
  rewrite (grid_closed_form_boundary pts 1) by (assumption || lia).
  f_equal. unfold first_spacing, small_pts. apply Rmult_1_l.
Qed.

Lemma first_spacing_inj (pts pts' : Z) :
  (2 <= pts / 10)%Z -> (2 <= pts' / 10)%Z ->
  first_spacing pts = first_spacing pts' -> (pts / 10 = pts' / 10)%Z.
Proof.
  unfold first_spacing. intros Hs Hs' Heq.
  assert (H1 : 1 <= IZR (pts / 10 - 1)) by (apply IZR_le; lia).
  assert (H2 : 1 <= IZR (pts' / 10 - 1)) by (apply IZR_le; lia).
  assert (Hr : IZR (pts / 10 - 1) = IZR (pts' / 10 - 1)).
  { apply (f_equal (fun x => x * IZR (pts / 10 - 1) * IZR (pts' / 10 - 1)))
      in Heq.
    field_simplify in Heq; lra. }
  apply eq_IZR in Hr. lia.
Qed.

Section WrapperValues.
Context {Y : Type} `{Elementwise Y} {Args Kw : Type}.
Implicit Types (func : Args -> Kw -> Z -> result Y).

Lemma sample_loop_values func (g : Z -> Y) other_args kwargs pts_l x_l
    result_l :
  Forall (fun pts => (2 <= pts / 10)%Z
                     /\ func other_args kwargs pts = Ok (g pts)) pts_l ->
  sample_loop func other_args kwargs pts_l x_l result_l
  = (calls_of pts_l,
     Ok (x_l ++ (first_spacing <$> pts_l), result_l ++ (g <$> pts_l))).
Proof.
  revert x_l result_l. induction pts_l as [|pts rest IH];
    intros x_l result_l Hok.
  - cbn. now rewrite !app_nil_r.
  - apply Forall_cons in Hok as [[Hpts Hy] Hrest].
    destruct (first_spacing_second pts Hpts) as (grid & Hgrid & Hx).
    cbn [sample_loop]. rewrite Hgrid, Hy. unfold call, pure, tbind.
    rewrite Hx, (IH _ _ Hrest). rewrite <- !app_assoc. reflexivity.
Qed.

(** Up to the first failing entry the loop has made the calls of the
    entries before it. *)
Lemma sample_loop_app func other_args kwargs pre post x_l result_l :
  Forall (sample_ok func other_args kwargs) pre ->
  exists xs ys,
    sample_loop func other_args kwargs (pre ++ post) x_l result_l
    = tbind (calls_of pre, Ok tt)
        (fun _ => sample_loop func other_args kwargs post
                    (x_l ++ xs) (result_l ++ ys)).
Proof.
  revert x_l result_l. induction pre as [|pts rest IH];
    intros x_l result_l Hok.
  - exists [], []. rewrite !app_nil_r. cbn.
    now destruct (sample_loop func other_args kwargs post x_l result_l).
  - apply Forall_cons in Hok as [[Hpts [y Hy]] Hrest].
    destruct (default_grid_second pts Hpts) as (grid & x & Hgrid & Hx).
    destruct (IH (x_l ++ [x]) (result_l ++ [y]) Hrest) as (xs & ys & Hloop).
    exists (x :: xs), (y :: ys).
    cbn [sample_loop app]. rewrite Hgrid, Hy. unfold call, pure, tbind.
    rewrite Hx. cbn [app]. rewrite Hloop. unfold tbind.
    unfold calls_of. rewrite bind_cons. fold (calls_of rest).
    rewrite <- !app_assoc. cbn [app].
    now destruct (sample_loop func other_args kwargs post (x_l ++ x :: xs)
                    (result_l ++ y :: ys)).
Qed.

End WrapperValues.

Lemma extrapolate_poly (k : nat) (xs p : list R) :
  (1 <= k <= 6)%nat -> length xs = k -> NoDup xs -> (length p <= k)%nat ->
  extrapolate k (peval p <$> xs) xs = Ok (peval p 0).
Proof.
  intros Hk Hlen Hnd Hp.
  destruct k as [|[|[|[|[|[|[|k]]]]]]]; try lia; clear Hk.
  - destruct xs as [|x1 [|]]; try discriminate.
    cbn [extrapolate fmap list_fmap]. rewrite np_index_head. f_equal.
    destruct p as [|c [|]]; cbn in *; try lia; ring.
  - destruct xs as [|x1 [|x2 [|]]]; try discriminate.
    cbn. f_equal. now apply linear_extrap_poly.
  - destruct xs as [|x1 [|x2 [|x3 [|]]]]; try discriminate.
    cbn. f_equal. now apply quadratic_extrap_poly.
  - destruct xs as [|x1 [|x2 [|x3 [|x4 [|]]]]]; try discriminate.
    cbn [extrapolate fmap list_fmap]. f_equal. now apply cubic_extrap_poly.
  - destruct xs as [|x1 [|x2 [|x3 [|x4 [|x5 [|]]]]]]; try discriminate.
    cbn [extrapolate fmap list_fmap]. f_equal.
    now apply quartic_extrap_poly.
  - destruct xs as [|x1 [|x2 [|x3 [|x4 [|x5 [|x6 [|]]]]]]];
      try discriminate.
    cbn [extrapolate fmap list_fmap]. f_equal.
    now apply quintic_extrap_poly.
Qed.

Lemma first_spacing_NoDup (pts_l : list Z) :
  Forall (fun pts => (2 <= pts / 10)%Z) pts_l ->
  NoDup ((fun pts => (pts / 10)%Z) <$> pts_l) ->
  NoDup (first_spacing <$> pts_l).
Proof.
  induction pts_l as [|pts rest IH]; intros Hok Hnd; [constructor|].
  apply Forall_cons in Hok as [Hpts Hrest].
  cbn [fmap list_fmap] in *. apply NoDup_cons in Hnd as [Hnotin Hnd].
  apply NoDup_cons. split; [|now apply IH].
  intros Hin. apply Hnotin.
  apply list_elem_of_fmap in Hin as (pts' & Heq & Hin').
  apply list_elem_of_fmap. exists pts'. split; [|exact Hin'].
  apply first_spacing_inj; try assumption.
  rewrite Forall_forall in Hrest. now apply Hrest.
Qed.

Lemma extrap_func_poly {Args Kw : Type}
    (func : Args -> Kw -> Z -> result R)
    (other_args : Args) (kwargs : Kw) (pts_l : list Z) (p : list R) :
  (1 <= length pts_l <= 6)%nat ->
  NoDup ((fun pts => (pts / 10)%Z) <$> pts_l) ->
  (length p <= length pts_l)%nat ->
  Forall (fun pts => (2 <= pts / 10)%Z
                     /\ func other_args kwargs pts
                        = Ok (peval p (first_spacing pts))) pts_l ->
  extrap_func func other_args kwargs pts_l = (calls_of pts_l, Ok (peval p 0)).
Proof.
  intros Hlen Hnd Hp Hok. unfold extrap_func.
  rewrite (sample_loop_values func (fun pts => peval p (first_spacing pts))
             other_args kwargs pts_l [] [] Hok).
  cbn [tbind pure app]. rewrite app_nil_r. f_equal.
  rewrite (list_fmap_compose first_spacing (peval p)).
  apply extrapolate_poly; try assumption.
  - now rewrite length_fmap.
  - apply first_spacing_NoDup; [|exact Hnd].
    eapply Forall_impl; [exact Hok|]. now intros pts [Hpts _].
Qed.

(** X13. Extrapolation to a zero grid spacing is exact on polynomials in
    the spacing.  For one to six resolutions, each at least 20 and no two
    with the same [floor(pts/10)], and a wrapped function whose result is
    a polynomial of degree below the number of resolutions in the first
    grid spacing [0.05/(floor(pts/10) - 1)], the wrapper returns the value
    of the polynomial at 0; a constant function gives back its constant. *)
Theorem make_extrap_func_exact {Args Kw : Type}
    (func : Args -> Kw -> Z -> result R)
    (other_args : Args) (kwargs : Kw) (pts_l : list Z) (p : list R) :
  (1 <= length pts_l <= 6)%nat ->
  NoDup ((fun pts => (pts / 10)%Z) <$> pts_l) ->
  (length p <= length pts_l)%nat ->
  Forall (fun pts => (2 <= pts / 10)%Z
                     /\ func other_args kwargs pts
                        = Ok (peval p (first_spacing pts))) pts_l ->
  make_extrap_func func other_args kwargs pts_l
  = (calls_of pts_l, Ok (peval p 0)).
Proof. apply extrap_func_poly. Qed.

Lemma make_extrap_func_exact_witness :
  make_extrap_func
    (fun (_ _ : unit) (pts : Z) => Ok (peval [7; 2; 3] (first_spacing pts)))
    tt tt [40; 50; 60]%Z
  = (calls_of [40; 50; 60]%Z, Ok (peval [7; 2; 3] 0)).
Proof.
  apply make_extrap_func_exact.
  - cbn. lia.
  - cbn. repeat (apply NoDup_cons; split;
      [rewrite ?not_elem_of_cons; repeat split; try discriminate;
       apply not_elem_of_nil|]).
    apply NoDup_nil_2.
  - cbn. lia.
  - repeat constructor; cbv; discriminate.
Defined.

(** X14. The log-domain wrapper is exact on exponentials of polynomials
    in the spacing: under the conditions of X13 on the resolutions, for a
    wrapped function returning [exp(p(spacing))] it returns [exp(p(0))]. *)
Theorem make_extrap_log_func_exact {Args Kw : Type}
    (func : Args -> Kw -> Z -> result R)
    (other_args : Args) (kwargs : Kw) (pts_l : list Z) (p : list R) :
  (1 <= length pts_l <= 6)%nat ->
  NoDup ((fun pts => (pts / 10)%Z) <$> pts_l) ->
  (length p <= length pts_l)%nat ->
  Forall (fun pts => (2 <= pts / 10)%Z
                     /\ func other_args kwargs pts
                        = Ok (exp (peval p (first_spacing pts)))) pts_l ->
  make_extrap_log_func func other_args kwargs pts_l
  = (calls_of pts_l, Ok (exp (peval p 0))).
Proof.
  intros Hlen Hnd Hp Hok. unfold make_extrap_log_func, make_extrap_func.
  rewrite (extrap_func_poly (logfunc func) other_args kwargs pts_l p);
    try assumption; [reflexivity|].
  eapply Forall_impl; [exact Hok|]. intros pts [Hpts Hy].
  split; [exact Hpts|]. unfold logfunc. rewrite Hy. cbn. now rewrite ln_exp.
Qed.

Lemma make_extrap_log_func_exact_witness :
  make_extrap_log_func
    (fun (_ _ : unit) (pts : Z) => Ok (exp (peval [7; 2] (first_spacing pts))))
    tt tt [40; 50]%Z
  = (calls_of [40; 50]%Z, Ok (exp (peval [7; 2] 0))).
Proof.
  apply make_extrap_log_func_exact.
  - cbn. lia.
  - cbn. repeat (apply NoDup_cons; split;
      [rewrite ?not_elem_of_cons; repeat split; try discriminate;
       apply not_elem_of_nil|]).
    apply NoDup_nil_2.
  - cbn. lia.
  - repeat constructor; cbv; discriminate.
Defined.

(** X15. A failure inside the loop is passed on unchanged and ends the
    run.  After entries on which all went well, an entry [r >= 20] on
    which the wrapped function raises [e] makes the wrapper raise [e],
    and an entry [0 <= r < 20] makes it raise the [IndexError] of
    [default_grid(r)] without calling the function on [r]; in both cases no
    later entry is evaluated, whatever the number of entries. *)
Theorem extrap_func_failure {Y : Type} `{Elementwise Y} {Args Kw : Type}
    (func : Args -> Kw -> Z -> result Y)
    (other_args : Args) (kwargs : Kw) (pre post : list Z) (r : Z) :
  Forall (sample_ok func other_args kwargs) pre ->
  (forall e, (2 <= r / 10)%Z -> func other_args kwargs r = Err e ->
     make_extrap_func func other_args kwargs (pre ++ r :: post)
     = (calls_of pre ++ [GridCall r; FuncCall r], Err e))
  /\ ((0 <= r < 20)%Z ->
      make_extrap_func func other_args kwargs (pre ++ r :: post)
      = (calls_of pre ++ [GridCall r], Err IndexError)).
Proof.
  intros Hpre. unfold make_extrap_func, extrap_func.
  destruct (sample_loop_app func other_args kwargs pre (r :: post) [] [] Hpre)
    as (xs & ys & ->).
  cbn [sample_loop]. split.
  - intros e Hr He.
    destruct (default_grid_second r Hr) as (grid & x & Hgrid & Hx).
    rewrite Hgrid, He. unfold call, pure, tbind. rewrite Hx. reflexivity.
  - intros Hr. rewrite default_grid_small
      by (Z.div_mod_to_equations; lia).
    reflexivity.
Qed.

Lemma extrap_func_failure_witness :
  make_extrap_func
    (fun (_ _ : unit) (pts : Z) =>
       if (pts =? 50)%Z then Err (Raised "boom") else Ok 1)
    tt tt ([40] ++ 50 :: [60])%Z
  = (calls_of [40%Z] ++ [GridCall 50; FuncCall 50], Err (Raised "boom")).
Proof.
  refine (proj1 (extrap_func_failure _ tt tt [40%Z] [60%Z] 50 _) _ _ _).
  - repeat constructor; [cbv; discriminate | now exists 1].
  - cbv. discriminate.
  - reflexivity.
Defined.

(** ** More on the extrapolators *)

Lemma extrapolate_lagrange (k : nat) (xs ys : list R) :
  (2 <= k <= 6)%nat -> length xs = k -> length ys = k -> NoDup xs ->
  extrapolate k ys xs = Ok (lagrange_at_zero xs ys).
Proof.
  intros Hk Hlen Hlen' Hnd.
  destruct k as [|[|[|[|[|[|[|k]]]]]]]; try lia; clear Hk.
  - destruct xs as [|x1 [|x2 [|]]]; try discriminate.
    destruct ys as [|y1 [|y2 [|]]]; try discriminate.
    cbn [extrapolate]. f_equal. now apply linear_extrap_lagrange.
  - destruct xs as [|x1 [|x2 [|x3 [|]]]]; try discriminate.
    destruct ys as [|y1 [|y2 [|y3 [|]]]]; try discriminate.
    cbn [extrapolate]. f_equal. now apply quadratic_extrap_lagrange.
  - destruct xs as [|x1 [|x2 [|x3 [|x4 [|]]]]]; try discriminate.
    destruct ys as [|y1 [|y2 [|y3 [|y4 [|]]]]]; try discriminate.
    cbn [extrapolate]. f_equal. now apply cubic_extrap_lagrange.
  - destruct xs as [|x1 [|x2 [|x3 [|x4 [|x5 [|]]]]]]; try discriminate.
    destruct ys as [|y1 [|y2 [|y3 [|y4 [|y5 [|]]]]]]; try discriminate.
    cbn [extrapolate]. f_equal. now apply quartic_extrap_lagrange.
  - destruct xs as [|x1 [|x2 [|x3 [|x4 [|x5 [|x6 [|]]]]]]];
      try discriminate.
    destruct ys as [|y1 [|y2 [|y3 [|y4 [|y5 [|y6 [|]]]]]]];
      try discriminate.
    cbn [extrapolate]. f_equal. now apply quintic_extrap_lagrange.
Qed.

Lemma basis0_perm (xi : R) (l l' : list R) :
  l ≡ₚ l' -> basis0 xi l = basis0 xi l'.
Proof.
  intros Hperm. unfold basis0.
  induction Hperm as [|x l l' _ IH|x y l|l l' l'' _ IH1 _ IH2]; cbn.
  - reflexivity.
  - now rewrite IH.
  - ring.
  - now rewrite IH1.
Qed.

Lemma lagrange_sum_perm_before (before before' : list R)
    (pts : list (R * R)) :
  before ≡ₚ before' -> lagrange_sum before pts = lagrange_sum before' pts.
Proof.
  revert before before'. induction pts as [|[x y] pts IH];
    intros before before' Hperm; [reflexivity|].
  cbn [lagrange_sum].
  rewrite (basis0_perm x (before ++ (fst <$> pts))
             (before' ++ (fst <$> pts))) by now rewrite Hperm.
  rewrite (IH (before ++ [x]) (before' ++ [x])) by now rewrite Hperm.
  reflexivity.
Qed.

Lemma lagrange_sum_perm (before : list R) (pts pts' : list (R * R)) :
  pts ≡ₚ pts' -> lagrange_sum before pts = lagrange_sum before pts'.
Proof.
  intros Hperm. revert before.
  induction Hperm as [|[x y] l l' Hl IH|[x1 y1] [x2 y2] l|l l' l'' _ IH1 _ IH2];
    intros before.
  - reflexivity.
  - cbn [lagrange_sum]. rewrite IH.
    rewrite (basis0_perm x (before ++ (fst <$> l)) (before ++ (fst <$> l')))
      by now rewrite Hl.
    reflexivity.
  - cbn [lagrange_sum fmap list_fmap fst].
    rewrite (basis0_perm x1 (before ++ x2 :: (fst <$> l))
               ((before ++ [x2]) ++ (fst <$> l)))
      by (rewrite <- app_assoc; reflexivity).
    rewrite (basis0_perm x2 ((before ++ [x1]) ++ (fst <$> l))
               (before ++ x1 :: (fst <$> l)))
      by (rewrite <- app_assoc; reflexivity).
    rewrite (lagrange_sum_perm_before ((before ++ [x1]) ++ [x2])
               ((before ++ [x2]) ++ [x1]) l).
    + ring.
    + rewrite <- !app_assoc. apply Permutation_app_head. constructor.
  - now rewrite IH1.
Qed.

(** X16. The order of the points does not matter: for [k] from 2 to 6
    and pairwise distinct positions, the extrapolator of order [k] gives
    the same value on any rearrangement of the [(x, y)] pairs. *)
Theorem extrapolate_order_independent (k : nat) (xs ys xs' ys' : list R) :
  (2 <= k <= 6)%nat -> length xs = k -> length ys = k ->
  length xs' = length ys' -> NoDup xs ->
  zip xs ys ≡ₚ zip xs' ys' ->
  extrapolate k ys' xs' = extrapolate k ys xs.
Proof.
  intros Hk Hxs Hys Hlen' Hnd Hperm.
  assert (Hfst : xs ≡ₚ xs').
  { rewrite <- (fst_zip xs ys), <- (fst_zip xs' ys') by lia.
    now rewrite Hperm. }
  assert (Hk' : length xs' = k) by (rewrite <- Hfst; exact Hxs).
  rewrite !extrapolate_lagrange; try assumption; try lia.
  - unfold lagrange_at_zero. f_equal. apply lagrange_sum_perm.
    now symmetry.
  - now rewrite <- Hfst.
Qed.

Lemma extrapolate_order_independent_witness :
  extrapolate 3 [9; 7; 8] [3; 1; 2] = extrapolate 3 [7; 8; 9] [1; 2; 3].
Proof.
  apply extrapolate_order_independent; try reflexivity; try (cbn; lia).
  - repeat (apply NoDup_cons; split;
      [rewrite ?not_elem_of_cons; repeat split; try lra;
       apply not_elem_of_nil|]).
    apply NoDup_nil_2.
  - cbn. etransitivity; [|apply perm_swap].
    apply perm_skip, perm_swap.
Defined.

Lemma basis0_scale (t xi : R) (others : list R) :
  t <> 0 -> Forall (fun xj => xj <> xi) others ->
  basis0 (t * xi) (Rmult t <$> others) = basis0 xi others.
Proof.
  intros Ht Hne. unfold basis0.
  induction Hne as [|xj others Hxj _ IH]; [reflexivity|].
  cbn [fmap list_fmap foldr fold_right] in *.
  change (list_fmap R R (Rmult t) others) with (Rmult t <$> others).
  rewrite IH. field. split; [lra|].
  intros E. replace (t * xj - t * xi) with (t * (xj - xi)) in E by ring.
  apply Rmult_integral in E as [E|E]; [contradiction|lra].
Qed.

Lemma lagrange_sum_scale (t : R) (before : list R) (pts : list (R * R)) :
  t <> 0 -> NoDup (before ++ (fst <$> pts)) ->
  lagrange_sum (Rmult t <$> before)
    ((fun p => (t * fst p, snd p)) <$> pts)
  = lagrange_sum before pts.
Proof.
  intros Ht. revert before.
  induction pts as [|[x y] pts IH]; intros before Hnd; [reflexivity|].
  cbn [fmap list_fmap lagrange_sum fst snd] in *.
  apply NoDup_app in Hnd as (Hb & Hdisj & Hpts).
  apply NoDup_cons in Hpts as [Hx Hpts].
  specialize (IH (before ++ [x])). rewrite fmap_app in IH.
  cbn [fmap list_fmap] in IH. rewrite IH.
  - f_equal.
    rewrite <- list_fmap_compose.
    replace (fst ∘ (fun p : R * R => (t * fst p, snd p)) <$> pts)
      with (Rmult t <$> (fst <$> pts))
      by (rewrite <- list_fmap_compose; reflexivity).
    rewrite <- fmap_app. rewrite basis0_scale; [reflexivity|exact Ht|].
    apply Forall_app. split; apply Forall_forall.
    + intros xj Hin ->. apply (Hdisj x Hin). now left.
    + intros xj Hin ->. contradiction.
  - rewrite <- app_assoc. apply NoDup_app. repeat split; try assumption.
    now apply NoDup_cons.
Qed.

Lemma zip_scale (t : R) (xs ys : list R) :
  zip (Rmult t <$> xs) ys = (fun p => (t * fst p, snd p)) <$> zip xs ys.
Proof.
  revert ys. induction xs as [|x xs IH]; intros [|y ys]; try reflexivity.
  cbn. f_equal. apply IH.
Qed.

(** X17. Only the ratios of the positions matter: for [k] from 2 to 6
    and pairwise distinct positions, multiplying every position by the
    same non-zero factor leaves the extrapolated value unchanged. *)
Theorem extrapolate_scale_invariant (k : nat) (t : R) (xs ys : list R) :
  (2 <= k <= 6)%nat -> length xs = k -> length ys = k -> NoDup xs ->
  t <> 0 ->
  extrapolate k ys (Rmult t <$> xs) = extrapolate k ys xs.
Proof.
  intros Hk Hxs Hys Hnd Ht.
  rewrite !extrapolate_lagrange; try assumption;
    rewrite ?length_fmap; try assumption.
  - f_equal. unfold lagrange_at_zero.
    rewrite <- (lagrange_sum_scale t [] (zip xs ys) Ht)
      by (cbn [app]; rewrite fst_zip by lia; exact Hnd).
    now rewrite zip_scale.
  - apply NoDup_fmap_2; [|exact Hnd].
    intros a b Hab. apply (Rmult_eq_reg_l t); assumption.
Qed.

Lemma extrapolate_scale_invariant_witness :
  extrapolate 2 [7; 8] (Rmult 5 <$> [1; 2]) = extrapolate 2 [7; 8] [1; 2].
Proof.
  apply extrapolate_scale_invariant; try reflexivity; try lra; try (cbn; lia).
  repeat (apply NoDup_cons; split;
    [rewrite ?not_elem_of_cons; repeat split; try lra;
     apply not_elem_of_nil|]).
  apply NoDup_nil_2.
Defined.

(** ** More on the projection cache *)

Lemma Rsum_app (l k : list R) : Rsum (l ++ k) = Rsum l + Rsum k.
Proof. unfold Rsum. induction l as [|x l IH]; cbn; [|rewrite IH]; ring. Qed.

Lemma Rsum_fmap_plus {A : Type} (f g : A -> R) (l : list A) :
  Rsum ((fun a => f a + g a) <$> l) = Rsum (f <$> l) + Rsum (g <$> l).
Proof.
  unfold Rsum. induction l as [|x l IH]; cbn; [ring|].
  change (list_fmap A R ?h l) with (h <$> l) in *. rewrite IH. ring.
Qed.

Lemma Rsum_fmap_div {A : Type} (f : A -> R) (c : R) (l : list A) :
  Rsum ((fun a => f a / c) <$> l) = Rsum (f <$> l) / c.
Proof.
  unfold Rsum. induction l as [|x l IH]; cbn; [unfold Rdiv; ring|].
  change (list_fmap A R ?h l) with (h <$> l) in *. rewrite IH.
  unfold Rdiv. ring.
Qed.

Lemma seqZ_shift (n : Z) : seqZ 1 n = Z.succ <$> seqZ 0 n.
Proof.
  unfold seqZ. rewrite <- list_fmap_compose. apply list_fmap_ext.
  intros i x _. unfold compose. lia.
Qed.

Lemma Rsum_seqZ_head (f : Z -> R) (m : Z) :
  (0 <= m)%Z ->
  Rsum (f <$> seqZ 0 (m + 1))
  = f 0%Z + Rsum ((fun j => f (Z.succ j)) <$> seqZ 0 m).
Proof.
  intros Hm. rewrite (seqZ_cons 0) by lia.
  replace (Z.pred (m + 1)) with m by lia.
  change (Z.succ 0) with 1%Z.
  rewrite fmap_cons, seqZ_shift, <- list_fmap_compose. reflexivity.
Qed.

Lemma Rsum_seqZ_last (f : Z -> R) (m : Z) :
  (0 <= m)%Z ->
  Rsum (f <$> seqZ 0 (m + 1)) = Rsum (f <$> seqZ 0 m) + f m.
Proof.
  intros Hm. rewrite (seqZ_snoc 0 (m + 1)) by lia.
  replace (m + 1 - 1)%Z with m by lia.
  rewrite fmap_app, Rsum_app. cbn. rewrite Z.add_0_l. ring.
Qed.

Lemma choose_0 (n : Z) : (0 <= n)%Z -> choose n 0 = 1.
Proof.
  intros Hn. unfold choose. destruct (Z.ltb_spec n 0); [lia|].
  cbn. now destruct (Z.to_nat n).
Qed.

Lemma choose_above (n k : Z) : (0 <= n < k)%Z -> choose n k = 0.
Proof.
  intros Hk. unfold choose.
  destruct (Z.ltb_spec n 0); [lia|]. destruct (Z.ltb_spec k 0); [lia|].
  cbn [orb]. now rewrite binomial_above by lia.
Qed.

Lemma choose_nonneg (n k : Z) : 0 <= choose n k.
Proof. unfold choose. destruct (_ || _); [lra|apply pos_INR]. Qed.

Lemma choose_pascal (n k : Z) :
  (0 <= n)%Z -> choose (n + 1) (k + 1) = choose n k + choose n (k + 1).
Proof.
  intros Hn. unfold choose.
  destruct (Z.ltb_spec (n + 1) 0); [lia|]. destruct (Z.ltb_spec n 0); [lia|].
  cbn [orb].
  destruct (Z.ltb_spec (k + 1) 0), (Z.ltb_spec k 0); try lia.
  - ring.
  - assert (k = -1)%Z as -> by lia.
    change (-1 + 1)%Z with 0%Z. change (Z.to_nat 0) with O.
    replace (Z.to_nat (n + 1)) with (S (Z.to_nat n)) by lia.
    destruct (Z.to_nat n); cbn [binomial]; ring.
  - replace (Z.to_nat (n + 1)) with (S (Z.to_nat n)) by lia.
    replace (Z.to_nat (k + 1)) with (S (Z.to_nat k)) by lia.
    cbn [binomial]. apply plus_INR.
Qed.

(** Vandermonde's convolution. *)
Lemma choose_convolution (m : nat) (n r : Z) :
  (0 <= n)%Z ->
  Rsum ((fun j => choose (Z.of_nat m) j * choose n (r - j))
          <$> seqZ 0 (Z.of_nat m + 1))
  = choose (Z.of_nat m + n) r.
Proof.
  intros Hn. revert r. induction m as [|m IH]; intros r.
  - change (seqZ 0 (Z.of_nat 0 + 1)) with [0%Z]. cbn.
    rewrite Z.sub_0_r, choose_0 by lia.
    change (Z.of_nat 0 + n)%Z with n. ring.
  - replace (Z.of_nat (S m)) with (Z.of_nat m + 1)%Z by lia.
    rewrite (seqZ_cons 0) by lia.
    replace (Z.pred (Z.of_nat m + 1 + 1)) with (Z.of_nat m + 1)%Z by lia.
    change (Z.succ 0) with 1%Z. rewrite seqZ_shift.
    cbn [fmap list_fmap Rsum fold_right].
    change (fold_right Rplus 0 ?l) with (Rsum l).
    change (list_fmap ?A ?B ?h ?l) with (h <$> l).
    rewrite <- list_fmap_compose.
    rewrite (list_fmap_ext _
      (fun j => choose (Z.of_nat m) j * choose n (r - 1 - j)
                + choose (Z.of_nat m) (j + 1) * choose n (r - (j + 1)))).
    2:{ intros i j _. unfold compose.
        replace (Z.succ j) with (j + 1)%Z by lia.
        rewrite choose_pascal by lia.
        replace (r - 1 - j)%Z with (r - (j + 1))%Z by lia. ring. }
    rewrite Rsum_fmap_plus, IH.
    rewrite choose_0, Z.sub_0_r by lia.
    assert (Hshift :
      1 * choose n r
      + Rsum ((fun j => choose (Z.of_nat m) (j + 1) * choose n (r - (j + 1)))
                <$> seqZ 0 (Z.of_nat m + 1))
      = choose (Z.of_nat m + n) r).
    { rewrite <- IH.
      rewrite (Rsum_seqZ_last _ (Z.of_nat m)) by lia.
      rewrite (Rsum_seqZ_head
                 (fun j => choose (Z.of_nat m) j * choose n (r - j))
                 (Z.of_nat m)) by lia.
      rewrite (choose_above (Z.of_nat m) (Z.of_nat m + 1)) by lia.
      rewrite choose_0, Z.sub_0_r by lia.
      rewrite (list_fmap_ext
        (fun j => choose (Z.of_nat m) (j + 1) * choose n (r - (j + 1)))
        (fun j => choose (Z.of_nat m) (Z.succ j) * choose n (r - Z.succ j))).
      - ring.
      - intros i j _. now replace (Z.succ j) with (j + 1)%Z by lia. }
    replace (Z.of_nat m + 1 + n)%Z with (Z.of_nat m + n + 1)%Z by lia.
    replace r with (r - 1 + 1)%Z at 3 by lia.
    rewrite choose_pascal by lia.
    replace (r - 1 + 1)%Z with r by lia.
    rewrite <- Hshift. ring.
Qed.

Lemma Rsum_nonneg (l : list R) : Forall (fun c => 0 <= c) l -> 0 <= Rsum l.
Proof.
  induction 1 as [|x l Hx _ IH]; unfold Rsum in *; cbn; lra.
Qed.

Lemma Rsum_bound (l : list R) :
  Forall (fun c => 0 <= c) l -> Forall (fun c => 0 <= c <= Rsum l) l.
Proof.
  induction 1 as [|x l Hx Hl IH]; constructor.
  - pose proof (Rsum_nonneg l Hl). unfold Rsum in *. cbn. lra.
  - pose proof (Rsum_nonneg l Hl) as Hs.
    eapply Forall_impl; [exact IH|]. intros c Hc.
    unfold Rsum in *. cbn. lra.
Qed.

Lemma exact_contrib_sum (proj_to proj_from hits : Z) :
  (0 <= proj_to <= proj_from)%Z -> (0 <= hits <= proj_from)%Z ->
  Rsum ((fun j => choose proj_to j * choose (proj_from - proj_to) (hits - j)
                  / choose proj_from hits) <$> seqZ 0 (proj_to + 1)) = 1.
Proof.
  intros Hto Hhits.
  rewrite (Rsum_fmap_div
    (fun j => choose proj_to j * choose (proj_from - proj_to) (hits - j))).
  pose proof (choose_convolution (Z.to_nat proj_to) (proj_from - proj_to) hits)
    as Hsum.
  rewrite Z2Nat.id in Hsum by lia.
  replace (proj_to + (proj_from - proj_to))%Z with proj_from in Hsum by lia.
  rewrite Hsum by lia.
  pose proof (choose_pos proj_from hits Hhits). field. lra.
Qed.

(** X18. On a miss with a key inside [0 <= proj_to <= proj_from] and
    [0 <= hits <= proj_from], the array computed and stored, in exact
    arithmetic, is a probability vector: every coefficient lies in
    [[0, 1]] and the coefficients sum to exactly 1. *)
Theorem cached_projection_distribution
    (proj_to proj_from hits : Z) (m : memory (option R)) :
  (0 <= proj_to <= proj_from)%Z -> (0 <= hits <= proj_from)%Z ->
  _projection_cache m !! (proj_to, proj_from, hits) = None ->
  exists (a : nat) (v : list R) (m' : memory (option R)),
    _cached_projection proj_to proj_from hits m = (a, m')
    /\ heap m' !! a = Some (Some <$> v)
    /\ Forall (fun c => 0 <= c <= 1) v
    /\ Rsum v = 1.
Proof.
  intros Hto Hhits Hmiss.
  destruct (cached_projection_miss proj_to proj_from hits m Hmiss)
    as (v & calls & Hcall & Hv).
  rewrite (exact_direct_contrib proj_to proj_from hits Hto Hhits) in Hv.
  rewrite existsb_isnan_values in Hv. subst v.
  eexists _, _, _. split; [exact Hcall|]. cbn [heap].
  split; [now rewrite lookup_app_r, Nat.sub_diag by lia|].
  pose proof (exact_contrib_sum proj_to proj_from hits Hto Hhits) as Hsum.
  split; [|exact Hsum].
  eapply Forall_impl.
  - apply Rsum_bound, Forall_fmap, Forall_forall. intros j _. cbn.
    pose proof (choose_pos proj_from hits Hhits).
    apply Rdiv_nonneg; [|lra].
    apply Rmult_le_pos; apply choose_nonneg.
  - intros c Hc. cbn beta in Hc. rewrite Hsum in Hc. exact Hc.
Qed.

Lemma cached_projection_distribution_witness :
  exists (a : nat) (v : list R) (m' : memory (option R)),
    _cached_projection 2 4 2 empty_memory = (a, m')
    /\ heap m' !! a = Some (Some <$> v)
    /\ Forall (fun c => 0 <= c <= 1) v
    /\ Rsum v = 1.
Proof.
  apply (cached_projection_distribution 2 4 2 empty_memory);
    [lia | lia | reflexivity].
Defined.

Section CacheRuns.
Context {F : Type} `{FloatOps F}.

Lemma cached_projection_keeps (proj_to proj_from hits : Z) (m : memory F)
    (key : Z * Z * Z) (a : nat) (v : list F) :
  _projection_cache m !! key = Some a -> heap m !! a = Some v ->
  _projection_cache (_cached_projection proj_to proj_from hits m).2 !! key
  = Some a
  /\ heap (_cached_projection proj_to proj_from hits m).2 !! a = Some v.
Proof.
  intros Hkey Hv.
  destruct (_projection_cache m !! (proj_to, proj_from, hits))
    as [b|] eqn:Hlook.
  - rewrite (cached_projection_hit _ _ _ _ _ Hlook). now split.
  - destruct (cached_projection_miss _ _ _ _ Hlook)
      as (w & calls & -> & _).
    cbn [snd heap _projection_cache]. split.
    + rewrite lookup_insert_ne; [exact Hkey|]. intros <-. congruence.
    + apply lookup_app_l_Some, Hv.
Qed.

Lemma cached_projections_keep (keys : list (Z * Z * Z)) (m : memory F)
    (key : Z * Z * Z) (a : nat) (v : list F) :
  _projection_cache m !! key = Some a -> heap m !! a = Some v ->
  _projection_cache (cached_projections keys m).2 !! key = Some a
  /\ heap (cached_projections keys m).2 !! a = Some v.
Proof.
  revert m. induction keys as [|[[proj_to proj_from] hits] keys IH];
    intros m Hkey Hv; [now split|].
  cbn [cached_projections].
  destruct (cached_projection_keeps proj_to proj_from hits m key a v Hkey Hv)
    as [Hkey1 Hv1].
  destruct (_cached_projection proj_to proj_from hits m) as [a1 m1].
  specialize (IH m1 Hkey1 Hv1).
  destruct (cached_projections keys m1) as [l m2]. exact IH.
Qed.

(** X19. The cache never evicts and never recomputes: once a key is in
    the dict, any further calls, with any keys, leave the key bound to the
    same array, leave that array's contents as they were, and a call with
    that key afterwards returns the same array without changing the
    memory. *)
Theorem cached_projections_stable (keys : list (Z * Z * Z)) (m : memory F)
    (proj_to proj_from hits : Z) (a : nat) (v : list F) :
  _projection_cache m !! (proj_to, proj_from, hits) = Some a ->
  heap m !! a = Some v ->
  let m' := (cached_projections keys m).2 in
  _projection_cache m' !! (proj_to, proj_from, hits) = Some a
  /\ heap m' !! a = Some v
  /\ _cached_projection proj_to proj_from hits m' = (a, m').
Proof.
  intros Hkey Hv m'.
  destruct (cached_projections_keep keys m _ a v Hkey Hv) as [Hkey' Hv'].
  repeat split; try assumption.
  now apply cached_projection_hit.
Qed.

End CacheRuns.

Lemma cached_projections_stable_witness :
  let m := Memory [[Some 1]] {[ (0, 0, 0)%Z := 0%nat ]} [] in
  let m' := (cached_projections [(2, 4, 5); (0, 0, 0); (2, 4, 2)]%Z m).2 in
  _projection_cache m' !! (0, 0, 0)%Z = Some 0%nat
  /\ heap m' !! 0%nat = Some [Some 1]
  /\ _cached_projection 0 0 0 m' = (0%nat, m').
Proof.
  apply (cached_projections_stable [(2, 4, 5); (0, 0, 0); (2, 4, 2)]%Z
           (Memory [[Some 1]] {[ (0, 0, 0)%Z := 0%nat ]} []) 0 0 0 0%nat
           [Some 1]); reflexivity.
Defined.

(** *** The log-space form *)

Lemma fact_IZR_pos (n : nat) : 0 < IZR (Z.of_nat (fact n)).
Proof. apply IZR_lt. pose proof (lt_O_fact n). lia. Qed.

Lemma exact_log_choose (n k : Z) :
  (0 <= k <= n)%Z -> log_choose n k = Some (ln (choose n k)).
Proof.
  intros Hk. rewrite <- comb_exact_choose by lia.
  unfold comb_exact, log_choose. cbn [gammaln fsub exact_ops].
  destruct (Z.leb_spec k n); [|lia].
  destruct (Z.leb_spec 0 n); [|lia].
  destruct (Z.leb_spec 0 k); [|lia].
  destruct (Z.ltb_spec 0 (n + 1)); [|lia].
  destruct (Z.ltb_spec 0 (k + 1)); [|lia].
  destruct (Z.ltb_spec 0 (n - k + 1)); [|lia].
  cbn [andb].
  replace (n + 1 - 1)%Z with n by lia.
  replace (k + 1 - 1)%Z with k by lia.
  replace (n - k + 1 - 1)%Z with (n - k)%Z by lia.
  pose proof (fact_IZR_pos (Z.to_nat n)).
  pose proof (fact_IZR_pos (Z.to_nat k)).
  pose proof (fact_IZR_pos (Z.to_nat (n - k))).
  f_equal. unfold Rdiv.
  rewrite ln_mult, ln_Rinv, ln_mult; try assumption.
  - ring.
  - now apply Rmult_lt_0_compat.
  - apply Rinv_0_lt_compat. now apply Rmult_lt_0_compat.
Qed.

(** X20. In exact arithmetic, at every index where the three binomial
    coefficients of the formula are non-zero, the log-space form of the
    fallback gives the same coefficient as the direct form. *)
Theorem log_contrib_agrees (proj_to proj_from hits j : Z) :
  (0 <= proj_to <= proj_from)%Z -> (0 <= hits <= proj_from)%Z ->
  (0 <= j <= proj_to)%Z -> (hits - (proj_from - proj_to) <= j <= hits)%Z ->
  log_contrib proj_to proj_from hits !! Z.to_nat j
  = direct_contrib proj_to proj_from hits !! Z.to_nat j
  /\ direct_contrib proj_to proj_from hits !! Z.to_nat j
     = Some (Some (choose proj_to j * choose (proj_from - proj_to) (hits - j)
                   / choose proj_from hits)).
Proof.
  intros Hto Hhits Hj Hsupp.
  assert (Hdirect :
    direct_contrib proj_to proj_from hits !! Z.to_nat j
    = Some (Some (choose proj_to j * choose (proj_from - proj_to) (hits - j)
                  / choose proj_from hits))).
  { rewrite exact_direct_contrib by assumption.
    rewrite <- list_fmap_compose, lookup_fmap_seqZ by lia.
    unfold compose. now replace (Z.of_nat (Z.to_nat j)) with j by lia. }
  split; [|exact Hdirect]. rewrite Hdirect.
  rewrite log_contrib_lookup by assumption.
  rewrite !exact_log_choose by lia.
  cbn [fadd fsub fexp exact_ops]. do 2 f_equal.
  pose proof (choose_pos proj_to j ltac:(lia)).
  pose proof (choose_pos (proj_from - proj_to) (hits - j) ltac:(lia)).
  pose proof (choose_pos proj_from hits ltac:(lia)).
  unfold Rminus, Rdiv.
  rewrite !exp_plus, exp_Ropp, !exp_ln by assumption. reflexivity.
Qed.

Lemma log_contrib_agrees_witness :
  log_contrib 2 4 2 !! Z.to_nat 1 = direct_contrib 2 4 2 !! Z.to_nat 1
  /\ direct_contrib 2 4 2 !! Z.to_nat 1
     = Some (Some (choose 2 1 * choose (4 - 2) (2 - 1) / choose 4 2)).
Proof. apply (log_contrib_agrees 2 4 2 1); lia. Defined.
